(** * NightSky: the seeded star field, the parallax driver and the
      shooting-star scheduler of [src/components/NightSky.tsx]

    The development embeds the component's logic shallowly:
    - JavaScript numbers are IEEE-754 binary64 values.  A finite double is a
      rational, so a [number] is a [Q] and every arithmetic operation of the
      source is the exact rational operation followed by [round64], rounding
      to nearest with ties to even, 53 bits of precision and gradual
      underflow.  Infinities and NaN are outside the model: every quantity of
      the component stays far below the overflow threshold.
    - The 32-bit integer operators ([>>>], [^], [|], [Math.imul]) work on [Z]
      with the wrap-around of [ToInt32] / [ToUint32] written out.
    - Closures with private mutable state (the generator returned by
      [createRng]) live in a store of cells.
    - The two effects of the component are transition systems over explicit
      states: the browser's pending animation frames and pending timers are
      part of the state. *)

From Stdlib Require Import ZArith QArith Qround Qabs Qpower Qreduction.
From Stdlib Require Import Lia Lqa List String Ascii DecimalString SpecFloat.
From Stdlib Require DecimalZ DecimalPos.
From Stdlib Require Import Sorted.
From stdpp Require Import base option list strings gmap.

Local Open Scope Z_scope.

(** ** JavaScript numbers *)

Module JS.

Local Open Scope Q_scope.

Definition number := Q.

(** [pow2 k] is 2^k for any integer exponent. *)
Definition pow2 (k : Z) : Q := 2 ^ k.

(** Floor of the base-2 logarithm of a positive rational. *)
Definition ilog2 (x : Q) : Z :=
  let k := (Z.log2 (Qnum x) - Z.log2 (Zpos (Qden x)))%Z in
  if Qle_bool (pow2 k) x then k else (k - 1)%Z.

(** Round to the nearest integer, ties to the even one. *)
Definition rne (x : Q) : Z :=
  let f := Qfloor x in
  match Qcompare (x - inject_Z f) (1 # 2) with
  | Lt => f
  | Gt => (f + 1)%Z
  | Eq => if Z.even f then f else (f + 1)%Z
  end.

(** Exponent of the unit in the last place of the binade of [x]: 53
    significant bits, and no finer than 2^-1074 (subnormal numbers). *)
Definition ulp_exp (x : Q) : Z := Z.max (ilog2 (Qabs x) - 52) (-1074).

(** The binary64 value nearest to the rational [x]. *)
Definition round64 (x : Q) : number :=
  if Qeq_bool x 0 then 0
  else let k := ulp_exp x in Qred (inject_Z (rne (x / pow2 k)) * pow2 k).

(** A rational is a double when rounding leaves it alone. *)
Definition is_double (x : Q) : Prop := round64 x == x.

Definition add (a b : number) : number := round64 (a + b).
Definition sub (a b : number) : number := round64 (a - b).
Definition mul (a b : number) : number := round64 (a * b).
(** [a / b] for a divisor that is not zero.  JavaScript gives an infinity
    or NaN for a zero divisor, which are outside the model. *)
Definition div (a b : number) : number := round64 (a / b).

(** [Math.abs]: exact on doubles. *)
Definition abs (a : number) : number := Qred (Qabs a).

(** A decimal literal of the source denotes the nearest double. *)
Definition lit (q : Q) : number := round64 q.

(** Comparison operators. *)
Definition ltb (a b : number) : bool := negb (Qle_bool b a).
Definition gtb (a b : number) : bool := ltb b a.

(** [Math.round] on a finite number: the floor of [x + 1/2]. *)
Definition round (x : number) : Z := Qfloor (x + (1 # 2)).

(** *** The 32-bit integer operators

    [ToUint32] and [ToInt32] truncate a finite number toward zero and wrap
    modulo 2^32; the bitwise operators and [Math.imul] apply them to their
    operands and return an integer-valued number. *)

Definition two32 : Z := 4294967296.

Definition trunc (x : number) : Z := Z.quot (Qnum x) (Zpos (Qden x)).

Definition toUint32 (x : number) : Z := (trunc x) mod two32.

Definition toInt32 (x : number) : Z :=
  let u := toUint32 x in
  if (2147483648 <=? u)%Z then (u - two32)%Z else u.

(** An integer as a number (exact below 2^53 in magnitude). *)
Definition int (z : Z) : number := inject_Z z.

(** [a ^ b] *)
Definition bxor (a b : number) : number :=
  int (Z.lxor (toInt32 a) (toInt32 b)).

(** [a | b] *)
Definition bor (a b : number) : number :=
  int (Z.lor (toInt32 a) (toInt32 b)).

(** [a >>> n] *)
Definition ushr (a n : number) : number :=
  int (Z.shiftr (toUint32 a) (toUint32 n mod 32)).

(** [Math.imul(a, b)] *)
Definition imul (a b : number) : number :=
  int (toInt32 (int (toUint32 a * toUint32 b))).

(** Template-literal rendering of an integer-valued number (plain decimal
    digits, as JavaScript prints integers below 10^21). *)
Definition toString (z : Z) : string := NilZero.string_of_int (Z.to_int z).

End JS.

(** ** The Standard Library's binary64

    [SpecFloat] is the executable specification of IEEE-754 arithmetic the
    Standard Library gives its primitive floats.  The two conversions below
    let the operations of [JS] be compared with it on sample operands. *)

Module Binary64.

Local Open Scope Q_scope.

(** A dyadic rational [n / 2^k] as a binary64 datum. *)
Definition to_spec (x : Q) : spec_float :=
  binary_normalize 53 1024 (Qnum x) (- Z.log2 (Zpos (Qden x))) false.

(** The rational a finite datum denotes. *)
Definition of_spec (f : spec_float) : option Q :=
  match f with
  | S754_zero _ => Some 0
  | S754_finite s m e =>
      Some (Qred ((if s then - inject_Z (Zpos m) else inject_Z (Zpos m))
                  * JS.pow2 e))
  | _ => None
  end.

Definition agree (spec : spec_float -> spec_float -> spec_float)
    (js : Q -> Q -> Q) (operands : Q * Q) : bool :=
  match of_spec (spec (to_spec operands.1) (to_spec operands.2)) with
  | Some q => Qeq_bool q (js operands.1 operands.2)
  | None => false
  end.

(** Operands around the cases the component meets: ties, the largest
    double below 1, the draws of the generator, subnormal results. *)
Definition samples : list (Q * Q) :=
  [ (40, 20 - JS.pow2 (-48));
    (4000, 5000 - JS.pow2 (-40));
    (1 - JS.pow2 (-53), 20);
    (1 - JS.pow2 (-52), 5000);
    (1 - JS.pow2 (-53), 40);
    (1, 5764607523034235 # 72057594037927936);
    (1 + JS.pow2 (-52), 1);
    (JS.pow2 (-52), 5764607523034235 # 72057594037927936);
    (3152519739159347 # 9007199254740992, 4294967295 # 4294967296);
    (1416247 # 4294967296, 3602879701896397 # 9007199254740992);
    (- (5 # 2), 3 # 4);
    (1, 3);
    (3 * JS.pow2 (-1074), JS.pow2 (-1));
    (5 * JS.pow2 (-1074), JS.pow2 (-1));
    (JS.pow2 (-600), 7 * JS.pow2 (-480));
    (572152369, 4294967296) ].

End Binary64.

(** ** The seeded random sequence: [createRng] *)

Module Rng.

Import JS.
Local Open Scope Q_scope.

(** The closure returned by [createRng] owns one variable, [state]. *)
Definition rng := number.

(** [const createRng = (seed) => { let state = seed >>> 0; return () => ... }] *)
Definition createRng (seed : number) : rng := ushr seed 0.

(** One call of the returned closure: the value and the updated [state]. *)
Definition next (state : rng) : number * rng :=
  let state := add state (int 0x6d2b79f5) in
  let result := imul (bxor state (ushr state (int 15))) (bor (int 1) state) in
  let result :=
    bxor result
         (add result (imul (bxor result (ushr result (int 7)))
                           (bor (int 61) result))) in
  (div (ushr (bxor result (ushr result (int 14))) (int 0)) (int 4294967296),
   state).

(** The state after [n] calls and the value of call number [n] (from 0). *)
Fixpoint advance (n : nat) (state : rng) : rng :=
  match n with
  | O => state
  | S n => advance n (snd (next state))
  end.

Definition draw (seed : number) (n : nat) : number :=
  fst (next (advance n (createRng seed))).

(** The largest value a generator can return: (2^32 - 1) / 2^32. *)
Definition max_draw : number := 4294967295 # 4294967296.

(** Code that draws from one generator threads its [state]. *)
Definition Rand (A : Type) : Type := rng -> A * rng.

Definition ret {A} (a : A) : Rand A := fun s => (a, s).

Definition bind {A B} (m : Rand A) (k : A -> Rand B) : Rand B :=
  fun s => let '(a, s') := m s in k a s'.

Definition random : Rand number := next.

Definition run {A} (m : Rand A) (seed : number) : A :=
  fst (m (createRng seed)).

End Rng.

#[global] Instance Rand_ret : MRet Rng.Rand := @Rng.ret.
#[global] Instance Rand_bind : MBind Rng.Rand := fun A B k m => Rng.bind m k.

(** ** Generators as closures

    Every call of [createRng] allocates a new cell for the [state] variable
    its closure captures; the function it returns is known by that cell.  A
    program holding several generators calls them in any order. *)

Module Closures.

Import JS.

Definition createRng (seed : number) (heap : gmap nat number)
    : nat * gmap nat number :=
  let g := fresh (dom heap) in (g, <[ g := Rng.createRng seed ]> heap).

Definition call (g : nat) (heap : gmap nat number)
    : option (number * gmap nat number) :=
  match heap !! g with
  | None => None
  | Some state =>
      let '(value, state') := Rng.next state in
      Some (value, <[ g := state' ]> heap)
  end.

(** Run a sequence of calls; log which generator returned which value. *)
Fixpoint calls (gs : list nat) (heap : gmap nat number)
    : list (nat * number) :=
  match gs with
  | [] => []
  | g :: gs =>
      match call g heap with
      | Some (value, heap') => (g, value) :: calls gs heap'
      | None => calls gs heap
      end
  end.

(** The values one generator returned, in the order of its calls. *)
Definition outputs (g : nat) (log : list (nat * number)) : list number :=
  map snd (filter (fun entry => entry.1 = g) log).

(** How many times a generator is called by a sequence of calls. *)
Definition times (g : nat) (gs : list nat) : nat :=
  length (filter (fun g' => g' = g) gs).

End Closures.

(** ** The star layer generator of [src/components/NightSky.tsx] *)

Module Stars.

Import JS Rng.
Local Open Scope Q_scope.

Record GeneratedStar := {
  id : string;
  top : number;
  left : number;
  scale : number;
  twinkleDelay : number;
  twinkleDuration : number;
}.

Definition STAR_COUNT : number := int 220.
Definition STAR_LAYERS : number := int 4.

(** The seed of the generator of the star at [index]: [seedOffset + index *
    17].  Both operands are integer-valued numbers: the component passes
    [layerIndex * 311] and the index of [Array.from]. *)
Definition starSeed (seedOffset index : Z) : number :=
  add (int seedOffset) (mul (int index) (int 17)).

(** The body of the [Array.from] callback once [random] is created. *)
Definition starFields (seedOffset index : Z) : Rand GeneratedStar :=
  r1 ← random;
  let top := mul r1 (int 100) in
  r2 ← random;
  let left := mul r2 (int 100) in
  r3 ← random;
  let scale := add (lit (35 # 100)) (mul r3 (int 1)) in
  r4 ← random;
  let twinkleDelay := mul r4 (int 14) in
  r5 ← random;
  let twinkleDuration := add (int 3) (mul r5 (lit (55 # 10))) in
  mret {| id := String.append (toString seedOffset)
                             (String.append "-" (toString index));
          top := top;
          left := left;
          scale := scale;
          twinkleDelay := twinkleDelay;
          twinkleDuration := twinkleDuration |}.

Definition star (seedOffset index : Z) : GeneratedStar :=
  run (starFields seedOffset index) (starSeed seedOffset index).

(** [Array.from({ length: count }, (_, index) => ...)], for a count below
    2^32; from there on [Array.from] throws a RangeError. *)
Definition createStarPositions (count seedOffset : Z) : list GeneratedStar :=
  map (fun index : nat => star seedOffset (Z.of_nat index))
      (seq 0 (Z.to_nat count)).

(** [Array.from({ length: STAR_LAYERS }, (_, layerIndex) => ...)] *)
Definition starLayers : list (list GeneratedStar) :=
  map (fun layerIndex : nat =>
         createStarPositions (round (div STAR_COUNT STAR_LAYERS))
                             (Z.of_nat layerIndex * 311))
      (seq 0 (Z.to_nat (trunc STAR_LAYERS))).

(** The pairs (seedOffset, index) of the configured field, layer by layer,
    and the seeds of the generators made for them. *)
Definition fieldIndices : list (list (Z * Z)) :=
  map (fun layerIndex : nat =>
         map (fun index : nat => (Z.of_nat layerIndex * 311, Z.of_nat index)%Z)
             (seq 0 (Z.to_nat (round (div STAR_COUNT STAR_LAYERS)))))
      (seq 0 (Z.to_nat (trunc STAR_LAYERS))).

Definition fieldSeeds : list number :=
  map (fun p => starSeed p.1 p.2) (concat fieldIndices).

End Stars.

(** ** The star layer generator of the second revision (colour variant) *)

Module StarsV.

Import JS Rng.
Local Open Scope Q_scope.

Record GeneratedStar := {
  id : string;
  top : number;
  left : number;
  scale : number;
  twinkleDelay : number;
  twinkleDuration : number;
  colorHue : number;
  colorSaturation : number;
  glowIntensity : number;
  shapeVariation : number;
}.

Definition STAR_COUNT : number := int 750.
Definition STAR_LAYERS : number := int 3.

Definition starSeed (seedOffset index : Z) : number :=
  add (int seedOffset) (mul (int index) (int 17)).

(** The [if / else if / else] that picks the colour class. *)
Definition starColor (colorType : number) : Rand (number * number) :=
  if ltb colorType (lit (7 # 10)) then
    r1 ← random;
    r2 ← random;
    mret (add (int 200) (mul r1 (int 20)), add (int 20) (mul r2 (int 30)))
  else if ltb colorType (lit (9 # 10)) then
    mret (int 0, int 0)
  else
    r1 ← random;
    r2 ← random;
    mret (add (int 30) (mul r1 (int 30)), add (int 40) (mul r2 (int 40))).

Definition starFields (seedOffset index : Z) : Rand GeneratedStar :=
  r1 ← random;
  let top := mul r1 (int 100) in
  r2 ← random;
  let left := mul r2 (int 100) in
  r3 ← random;
  let scale := add (lit (35 # 100)) (mul r3 (int 1)) in
  r4 ← random;
  let twinkleDelay := mul r4 (int 14) in
  r5 ← random;
  let twinkleDuration := add (int 3) (mul r5 (lit (55 # 10))) in
  colorType ← random;
  color ← starColor colorType;
  r6 ← random;
  let glowIntensity := add (lit (6 # 10)) (mul r6 (lit (4 # 10))) in
  shapeVariation ← random;
  mret {| id := String.append (toString seedOffset)
                             (String.append "-" (toString index));
          top := top;
          left := left;
          scale := scale;
          twinkleDelay := twinkleDelay;
          twinkleDuration := twinkleDuration;
          colorHue := fst color;
          colorSaturation := snd color;
          glowIntensity := glowIntensity;
          shapeVariation := shapeVariation |}.

Definition star (seedOffset index : Z) : GeneratedStar :=
  run (starFields seedOffset index) (starSeed seedOffset index).

(** The threshold draw of a star: the sixth value of its generator. *)
Definition colorType (seedOffset index : Z) : number :=
  draw (starSeed seedOffset index) 5.

(** As in the reference revision, for a count below 2^32. *)
Definition createStarPositions (count seedOffset : Z) : list GeneratedStar :=
  map (fun index : nat => star seedOffset (Z.of_nat index))
      (seq 0 (Z.to_nat count)).

Definition starLayers : list (list GeneratedStar) :=
  map (fun layerIndex : nat =>
         createStarPositions (round (div STAR_COUNT STAR_LAYERS))
                             (Z.of_nat layerIndex * 311))
      (seq 0 (Z.to_nat (trunc STAR_LAYERS))).

Definition fieldIndices : list (list (Z * Z)) :=
  map (fun layerIndex : nat =>
         map (fun index : nat => (Z.of_nat layerIndex * 311, Z.of_nat index)%Z)
             (seq 0 (Z.to_nat (round (div STAR_COUNT STAR_LAYERS)))))
      (seq 0 (Z.to_nat (trunc STAR_LAYERS))).

Definition fieldSeeds : list number :=
  map (fun p => starSeed p.1 p.2) (concat fieldIndices).

End StarsV.

(** ** The parallax driver (first effect of the component)

    The state holds the three refs the effect uses and the browser's list of
    pending animation-frame callbacks.  [container.style.setProperty] only
    publishes the smoothed offset and is not part of the state. *)

Module Parallax.

Import JS.
Local Open Scope Q_scope.

Record vec := { x : number; y : number }.

Record DOMRect := {
  rect_left : number;
  rect_top : number;
  rect_width : number;
  rect_height : number;
}.

Record state := {
  targetRef : vec;
  smoothRef : vec;
  rafRef : option nat;
  frames : list nat;      (* callbacks the browser still has to run *)
  nextFrame : nat;        (* next handle [requestAnimationFrame] returns *)
  listening : bool;       (* the two window listeners are installed *)
}.

Definition easing : number := lit (8 # 100).
Definition threshold : number := lit (1 # 1000).

(** [smooth += (target - smooth) * easing] *)
Definition ease (smooth target : number) : number :=
  add smooth (mul (sub target smooth) easing).

(** [Math.abs(target - smooth)] *)
Definition delta (smooth target : number) : number :=
  abs (sub target smooth).

(** [rafRef.current = requestAnimationFrame(updateParallax)] *)
Definition requestFrame (st : state) : state :=
  {| targetRef := targetRef st;
     smoothRef := smoothRef st;
     rafRef := Some (nextFrame st);
     frames := frames st ++ [nextFrame st];
     nextFrame := S (nextFrame st);
     listening := listening st |}.

Definition updateParallax (st : state) : state :=
  let target := targetRef st in
  let smooth := {| x := ease (x (smoothRef st)) (x target);
                   y := ease (y (smoothRef st)) (y target) |} in
  let deltaX := delta (x smooth) (x target) in
  let deltaY := delta (y smooth) (y target) in
  let st' := {| targetRef := target;
                smoothRef := smooth;
                rafRef := rafRef st;
                frames := frames st;
                nextFrame := nextFrame st;
                listening := listening st |} in
  if gtb deltaX threshold || gtb deltaY threshold then requestFrame st'
  else {| targetRef := target;
          smoothRef := smooth;
          rafRef := None;
          frames := frames st;
          nextFrame := nextFrame st;
          listening := listening st |}.

Definition setTarget (t : vec) (st : state) : state :=
  {| targetRef := t;
     smoothRef := smoothRef st;
     rafRef := rafRef st;
     frames := frames st;
     nextFrame := nextFrame st;
     listening := listening st |}.

(** [if (rafRef.current === null) rafRef.current = requestAnimationFrame(...)] *)
Definition requestIfIdle (st : state) : state :=
  match rafRef st with
  | None => requestFrame st
  | Some _ => st
  end.

(** [rect] is [container.getBoundingClientRect()]; a laid-out container has
    a width and a height that are not zero. *)
Definition handlePointerMove (clientX clientY : number) (rect : DOMRect)
    (st : state) : state :=
  let relativeX :=
    sub (div (sub clientX (rect_left rect)) (rect_width rect)) (lit (5 # 10)) in
  let relativeY :=
    sub (div (sub clientY (rect_top rect)) (rect_height rect)) (lit (5 # 10)) in
  requestIfIdle
    (setTarget {| x := mul relativeX (int 2); y := mul relativeY (int 2) |} st).

Definition handlePointerLeave (st : state) : state :=
  requestIfIdle (setTarget {| x := int 0; y := int 0 |} st).

(** The cleanup of the effect. *)
Definition cleanup (st : state) : state :=
  {| targetRef := targetRef st;
     smoothRef := smoothRef st;
     rafRef := rafRef st;
     frames := match rafRef st with
               | Some h => filter (fun h' => h' <> h) (frames st)
               | None => frames st
               end;
     nextFrame := nextFrame st;
     listening := false |}.

(** The state once the effect has run on mount. *)
Definition mounted : state :=
  {| targetRef := {| x := int 0; y := int 0 |};
     smoothRef := {| x := int 0; y := int 0 |};
     rafRef := None;
     frames := [];
     nextFrame := 1%nat;
     listening := true |}.

Inductive event :=
| PointerMove (clientX clientY : number) (rect : DOMRect)
| PointerLeave
| Frame (handle : nat)
| Unmount.

(** One turn of the event loop.  A pointer event is delivered only while the
    listeners are installed; a frame callback runs only if the browser still
    holds its handle, which the browser drops before it calls back. *)
Definition step (st : state) (e : event) : state :=
  match e with
  | PointerMove cx cy rect =>
      if listening st then handlePointerMove cx cy rect st else st
  | PointerLeave =>
      if listening st then handlePointerLeave st else st
  | Frame h =>
      if bool_decide (h ∈ frames st) then
        updateParallax
          {| targetRef := targetRef st;
             smoothRef := smoothRef st;
             rafRef := rafRef st;
             frames := filter (fun h' => h' <> h) (frames st);
             nextFrame := nextFrame st;
             listening := listening st |}
      else st
  | Unmount => if listening st then cleanup st else st
  end.

Definition run (es : list event) : state := fold_left step es mounted.

(** Repeated easing toward a target that is held fixed. *)
Fixpoint settle (n : nat) (smooth target : number) : number :=
  match n with
  | O => smooth
  | S n => settle n (ease smooth target) target
  end.

(** The browser's pending list agrees with [rafRef]: while the effect is
    mounted the pending frames are exactly the one [rafRef] records (none
    when it is [null]); after the cleanup none is pending. *)
Definition consistent (st : state) : Prop :=
  if listening st then
    frames st = match rafRef st with Some h => [h] | None => [] end
  else frames st = [].

(** The envelope of the distance to the target: a factor 23/25 = 0.92 per
    step. *)
Fixpoint decay (n : nat) (a : Q) : Q :=
  match n with
  | O => a
  | S n => decay n ((23 # 25) * a)
  end.

(** What rounding can add to the envelope : 37.5 units of 2^-51. *)
Definition noise : Q := (75 # 2) * pow2 (-51).

End Parallax.

(** ** The shooting-star scheduler (second effect of the component)

    [Math.random] is the one source of external entropy: every spawn
    receives the values it draws.  The browser's pending timers are part of
    the state; a timer may fire in any order relative to the others. *)

Module Shooting.

Import JS.
Local Open Scope Q_scope.

Record ShootingStar := {
  id : Z;
  top : number;
  left : number;
  duration : number;
  delay : number;
}.

(** The two revisions differ in the duration and the start delay. *)
Inductive revision := Reference | Variant.

(** What a pending timer will run. *)
Inductive callback :=
| Spawn                      (* [spawnShootingStar] *)
| Remove (starId : Z).       (* the removal closure of one star *)

Record timer := { ms : number; run : callback }.

Record state := {
  shootingStars : list ShootingStar;
  starIdRef : Z;
  removalTimeoutsRef : gset nat;
  timeoutId : option nat;
  timers : gmap nat timer;   (* timers the browser still has to fire *)
  nextTimer : nat;           (* next handle [setTimeout] returns *)
  live : bool;               (* the effect is mounted *)
}.

(** The values one run of [spawnShootingStar] draws from [Math.random], in
    the order of the calls. *)
Record draws := {
  forDuration : number;
  forTop : number;
  forLeft : number;
  forDelay : number;         (* not drawn in the variant *)
  forNext : number;
}.

(** What [Math.random] may return: a double in [0, 1). *)
Definition unit_double (r : number) : Prop := is_double r /\ 0 <= r /\ r < 1.

Definition valid_draws (d : draws) : Prop :=
  unit_double (forDuration d) /\ unit_double (forTop d) /\
  unit_double (forLeft d) /\ unit_double (forDelay d) /\
  unit_double (forNext d).

Definition newStar (rev : revision) (d : draws) (starId : Z) : ShootingStar :=
  match rev with
  | Reference =>
      {| id := starId;
         top := mul (forTop d) (int 40);
         left := add (int 40) (mul (forLeft d) (int 20));
         duration := add (lit (12 # 10)) (mul (forDuration d) (lit (8 # 10)));
         delay := mul (forDelay d) (lit (3 # 10)) |}
  | Variant =>
      {| id := starId;
         top := mul (forTop d) (int 40);
         left := add (int 40) (mul (forLeft d) (int 20));
         duration := add (lit (1 # 10)) (mul (forDuration d) (lit (1 # 10)));
         delay := int 0 |}
  end.

(** [(duration + star.delay) * 1000] *)
Definition removalDelay (star : ShootingStar) : number :=
  mul (add (duration star) (delay star)) (int 1000).

(** [4000 + Math.random() * 5000] *)
Definition nextDelay (d : draws) : number :=
  add (int 4000) (mul (forNext d) (int 5000)).

Definition spawnShootingStar (rev : revision) (d : draws) (st : state)
    : state :=
  let star := newStar rev d (starIdRef st) in
  let removalTimeout := nextTimer st in
  let spawnTimeout := S (nextTimer st) in
  {| shootingStars := shootingStars st ++ [star];
     starIdRef := (starIdRef st + 1)%Z;
     removalTimeoutsRef := {[ removalTimeout ]} ∪ removalTimeoutsRef st;
     timeoutId := Some spawnTimeout;
     timers :=
       <[ spawnTimeout := {| ms := nextDelay d; run := Spawn |} ]>
         (<[ removalTimeout :=
               {| ms := removalDelay star; run := Remove (id star) |} ]>
            (timers st));
     nextTimer := S (S (nextTimer st));
     live := live st |}.

(** The removal closure: [handle] is the [removalTimeout] it captured. *)
Definition removeShootingStar (starId : Z) (handle : nat) (st : state)
    : state :=
  {| shootingStars :=
       filter (fun s => id s <> starId) (shootingStars st);
     starIdRef := starIdRef st;
     removalTimeoutsRef := removalTimeoutsRef st ∖ {[ handle ]};
     timeoutId := timeoutId st;
     timers := timers st;
     nextTimer := nextTimer st;
     live := live st |}.

(** The effect body: [timeoutId = window.setTimeout(spawnShootingStar, 2500)] *)
Definition mount (st : state) : state :=
  {| shootingStars := shootingStars st;
     starIdRef := starIdRef st;
     removalTimeoutsRef := removalTimeoutsRef st;
     timeoutId := Some (nextTimer st);
     timers := <[ nextTimer st := {| ms := int 2500; run := Spawn |} ]>
                 (timers st);
     nextTimer := S (nextTimer st);
     live := true |}.

(** [window.clearTimeout] on every handle of a set. *)
Definition clearAll (hs : gset nat) (ts : gmap nat timer) : gmap nat timer :=
  filter (fun kv => kv.1 ∉ hs) ts.

(** The cleanup of the effect.  The closure and its [timeoutId] variable are
    dropped with the effect; a later mount starts from a fresh one. *)
Definition cleanup (st : state) : state :=
  let ts := match timeoutId st with
            | Some h => delete h (timers st)
            | None => timers st
            end in
  {| shootingStars := shootingStars st;
     starIdRef := starIdRef st;
     removalTimeoutsRef := ∅;
     timeoutId := None;
     timers := clearAll (removalTimeoutsRef st) ts;
     nextTimer := nextTimer st;
     live := false |}.

(** Before the component mounts. *)
Definition initial : state :=
  {| shootingStars := [];
     starIdRef := 0;
     removalTimeoutsRef := ∅;
     timeoutId := None;
     timers := ∅;
     nextTimer := 1%nat;
     live := false |}.

Inductive event :=
| Mount
| Unmount
| Fire (handle : nat) (d : draws).

(** The browser fires a pending timer: it forgets the handle, then runs the
    callback.  Firing a handle that is not pending does nothing. *)
Definition fire (rev : revision) (handle : nat) (d : draws) (st : state)
    : state :=
  match timers st !! handle with
  | None => st
  | Some t =>
      let st' := {| shootingStars := shootingStars st;
                    starIdRef := starIdRef st;
                    removalTimeoutsRef := removalTimeoutsRef st;
                    timeoutId := timeoutId st;
                    timers := delete handle (timers st);
                    nextTimer := nextTimer st;
                    live := live st |} in
      match run t with
      | Spawn => spawnShootingStar rev d st'
      | Remove starId => removeShootingStar starId handle st'
      end
  end.

Definition step (rev : revision) (st : state) (e : event) : state :=
  match e with
  | Mount => if live st then st else mount st
  | Unmount => if live st then cleanup st else st
  | Fire h d => fire rev h d st
  end.

Definition exec (rev : revision) (es : list event) (st : state) : state :=
  fold_left (step rev) es st.

(** What holds between two turns of the event loop: the pending spawn timer
    is the one [timeoutId] holds, every pending removal timer is tracked in
    [removalTimeoutsRef] and waits for a star that is in the list, no two of
    them wait for the same star, identifiers are not reused, and nothing is
    pending while the effect is not mounted. *)
Record wf (st : state) : Prop := {
  wf_spawn : forall h t,
    timers st !! h = Some t -> run t = Spawn -> timeoutId st = Some h;
  wf_removal : forall h t k,
    timers st !! h = Some t -> run t = Remove k ->
    h ∈ removalTimeoutsRef st /\ k ∈ (id <$> shootingStars st);
  wf_inj : forall h h' t t' k,
    timers st !! h = Some t -> timers st !! h' = Some t' ->
    run t = Remove k -> run t' = Remove k -> h = h';
  wf_ids : NoDup (id <$> shootingStars st);
  wf_bound : forall k, k ∈ (id <$> shootingStars st) -> (k < starIdRef st)%Z;
  wf_dead : live st = false -> timers st = ∅;
}.

(** Events that only fire timers. *)
Definition fires (fs : list (nat * draws)) : list event :=
  map (fun f => Fire f.1 f.2) fs.

End Shooting.

(** ** The generator as a counter and a mixing function

    A call of the closure advances [state] by a constant and then computes
    the value from the new state alone. *)

Module Weyl.

Import JS.

(** [0x6d2b79f5], the increment of [state]. *)
Definition increment : Z := 0x6d2b79f5.

(** What a call computes from the state it has just advanced. *)
Definition mix (state : number) : number :=
  let result := imul (bxor state (ushr state (int 15))) (bor (int 1) state) in
  let result :=
    bxor result
         (add result (imul (bxor result (ushr result (int 7)))
                           (bor (int 61) result))) in
  div (ushr (bxor result (ushr result (int 14))) (int 0)) (int 4294967296).

End Weyl.

(** ** The parallax driver while the pointer is over the container *)

Module Driver.

Import JS Parallax.
Local Open Scope Q_scope.

(** The coordinates of a pointer event lie in the container's rectangle,
    whose width and height are positive. *)
Definition inside (clientX clientY : number) (rect : DOMRect) : Prop :=
  is_double (rect_width rect) /\ is_double (rect_height rect) /\
  0 < rect_width rect /\ 0 < rect_height rect /\
  rect_left rect <= clientX /\ clientX <= rect_left rect + rect_width rect /\
  rect_top rect <= clientY /\ clientY <= rect_top rect + rect_height rect.

Definition pointer_inside (e : event) : Prop :=
  match e with
  | PointerMove clientX clientY rect => inside clientX clientY rect
  | _ => True
  end.

(** A double between -1 and 1. *)
Definition unit_range (v : number) : Prop := is_double v /\ -1 <= v /\ v <= 1.

(** The browser runs the pending frame callbacks, at most [n] frames, and no
    other event comes in between. *)
Fixpoint animate (n : nat) (st : state) : state :=
  match n with
  | O => st
  | S n =>
      match frames st with
      | [] => st
      | h :: _ => animate n (step st (Frame h))
      end
  end.

(** The test that ends [updateParallax], on the state it leaves. *)
Definition moving (st : state) : bool :=
  gtb (delta (x (smoothRef st)) (x (targetRef st))) threshold
  || gtb (delta (y (smoothRef st)) (y (targetRef st))) threshold.

End Driver.


(** ** The shooting-star scheduler between two turns of the event loop *)

Module Scheduler.

Import JS Shooting.

(** A removal timer is pending under [handle]. *)
Definition pending_removal (st : state) (handle : nat) : Prop :=
  exists t k, timers st !! handle = Some t /\ run t = Remove k.

(** A timer that will run [spawnShootingStar] is pending under [handle]. *)
Definition pending_spawn (st : state) (handle : nat) : Prop :=
  exists t, timers st !! handle = Some t /\ run t = Spawn.

(** The refs and the browser's timers fit together: pending handles are
    handles [setTimeout] has returned, [removalTimeoutsRef] holds only
    handles of pending removal timers, the timer under [timeoutId] is
    pending while the effect is mounted, and the identifiers in the list
    grow from the front to the back and are below [starIdRef]. *)
Record inv (st : state) : Prop := {
  inv_fresh : forall h t, timers st !! h = Some t -> (h < nextTimer st)%nat;
  inv_tracked : forall h, h ∈ removalTimeoutsRef st -> pending_removal st h;
  inv_chain : live st = true ->
    exists h, timeoutId st = Some h /\ pending_spawn st h;
  inv_sorted : StronglySorted Z.lt (id <$> shootingStars st);
  inv_ids : Forall (fun k => (0 <= k < starIdRef st)%Z)
                   (id <$> shootingStars st);
  inv_count : (0 <= starIdRef st)%Z;
}.

(** The effect is not cleaned up. *)
Definition no_cleanup (es : list event) : Prop :=
  Forall (fun e => e <> Unmount) es.

(** Every star in the list waits for a pending removal timer. *)
Definition covered (st : state) : Prop :=
  forall s, s ∈ shootingStars st ->
    exists h t, timers st !! h = Some t /\ run t = Remove (id s).

End Scheduler.

(** ** The order in which the browser runs timers *)

Module Timers.

Import JS Shooting.

(** The timeout of a timer as [setTimeout] reads it: converted to a WebIDL
    [long], a negative value taken as 0. *)
Definition millis (t : timer) : Z := Z.max 0 (toInt32 (ms t)).

(** HTML, run steps after a timeout: a timer waits for every pending timer
    that was started before it with a timeout that is not longer.  The
    handles of the scheduler's state are handed out in the order of the
    [setTimeout] calls. *)
Definition may_fire (st : state) (handle : nat) : bool :=
  match timers st !! handle with
  | None => true
  | Some t =>
      bool_decide
        (map_Forall
           (fun h' t' => (h' < handle)%nat -> (millis t < millis t')%Z)
           (timers st))
  end.

(** A run of one mounted effect in which the browser keeps that order and
    [Math.random] returns doubles in [0,1). *)
Fixpoint ordered (rev : revision) (es : list event) (st : state) : Prop :=
  match es with
  | [] => True
  | e :: es' =>
      match e with
      | Mount => True
      | Unmount => False
      | Fire h d => may_fire st h = true /\ valid_draws d
      end /\ ordered rev es' (step rev st e)
  end.

(** The three shapes of the scheduler in such a run: not mounted yet;
    waiting for the next spawn with no star shown; one star shown, whose
    removal timer was started before the next spawn timer and is not due
    later. *)
Definition shape (st : state) : Prop :=
  (live st = false /\ shootingStars st = [] /\ timers st = ∅) \/
  (live st = true /\ shootingStars st = [] /\
   exists h t, timers st = {[ h := t ]} /\ run t = Spawn) \/
  (live st = true /\
   exists s hr tr hs ts,
     shootingStars st = [s] /\
     timers st = <[ hs := ts ]> {[ hr := tr ]} /\
     (hr < hs)%nat /\ run tr = Remove (id s) /\ run ts = Spawn /\
     (millis tr <= millis ts)%Z).

End Timers.

(** * Properties *)

(** ** Rounding to binary64 *)

Section Rounding.

Import JS.
Local Open Scope Q_scope.

Lemma pow2_pos k : 0 < pow2 k.
Proof. apply Qpower_0_lt. reflexivity. Qed.

Lemma pow2_add a b : pow2 (a + b) == pow2 a * pow2 b.
Proof. apply Qpower_plus. discriminate. Qed.

Lemma pow2_le a b : (a <= b)%Z -> pow2 a <= pow2 b.
Proof. intros H. apply Qpower_le_compat_l; [exact H | discriminate]. Qed.

Lemma pow2_lt a b : (a < b)%Z -> pow2 a < pow2 b.
Proof. intros H. apply Qpower_lt_compat_l; [exact H | reflexivity]. Qed.

Lemma pow2_lt_inv a b : pow2 a < pow2 b -> (a < b)%Z.
Proof. intros H. eapply Qpower_lt_compat_l_inv; [exact H | reflexivity]. Qed.

Lemma pow2_Z n : (0 <= n)%Z -> pow2 n == inject_Z (2 ^ n).
Proof. intros H. unfold pow2. rewrite Zpower_Qpower by exact H. reflexivity. Qed.

Lemma pow2_S a : pow2 (a + 1) == 2 * pow2 a.
Proof. rewrite pow2_add. change (pow2 1) with 2. ring. Qed.

Lemma Qmake_as_div n d : n # d == inject_Z n / inject_Z (Zpos d).
Proof. apply Qmake_Qdiv. Qed.

Lemma ilog2_spec x : 0 < x -> pow2 (ilog2 x) <= x /\ x < pow2 (ilog2 x + 1).
Proof.
  intros Hx. unfold ilog2.
  destruct x as [n d]. cbn [Qnum Qden].
  assert (Hn : (0 < n)%Z).
  { unfold Qlt in Hx. cbn in Hx. lia. }
  set (a := Z.log2 n). set (b := Z.log2 (Zpos d)).
  assert (Ha0 : (0 <= a)%Z) by apply Z.log2_nonneg.
  assert (Hb0 : (0 <= b)%Z) by apply Z.log2_nonneg.
  destruct (Z.log2_spec n Hn) as [Ha1 Ha2]. fold a in Ha1, Ha2.
  destruct (Z.log2_spec (Zpos d) eq_refl) as [Hb1 Hb2]. fold b in Hb1, Hb2.
  assert (Hd : 0 < inject_Z (Zpos d)) by reflexivity.
  assert (Hxd : (n # d) * inject_Z (Zpos d) == inject_Z n).
  { rewrite Qmake_as_div. field. discriminate. }
  assert (Ea : pow2 a == inject_Z (2 ^ a)) by (apply pow2_Z; lia).
  assert (Ea1 : pow2 (a + 1) == inject_Z (2 ^ (a + 1))) by (apply pow2_Z; lia).
  assert (Eb : pow2 b == inject_Z (2 ^ b)) by (apply pow2_Z; lia).
  assert (Eb1 : pow2 (b + 1) == inject_Z (2 ^ (b + 1))) by (apply pow2_Z; lia).
  assert (Qa1 : pow2 a <= inject_Z n) by (rewrite Ea, <- Zle_Qle; lia).
  assert (Qa2 : inject_Z n < pow2 (a + 1)) by (rewrite Ea1, <- Zlt_Qlt; lia).
  assert (Qb1 : pow2 b <= inject_Z (Zpos d)) by (rewrite Eb, <- Zle_Qle; lia).
  assert (Qb2 : inject_Z (Zpos d) < pow2 (b + 1))
    by (rewrite Eb1, <- Zlt_Qlt; lia).
  assert (Hup : n # d < pow2 (a - b + 1)).
  { apply Qmult_lt_r with (z := pow2 b); [apply pow2_pos |].
    rewrite <- pow2_add. replace (a - b + 1 + b)%Z with (a + 1)%Z by lia.
    eapply Qle_lt_trans; [| exact Qa2].
    rewrite <- Hxd. apply Qmult_le_l; [exact Hx | exact Qb1]. }
  assert (Hlo : pow2 (a - b - 1) < n # d).
  { apply Qmult_lt_r with (z := pow2 (b + 1)); [apply pow2_pos |].
    rewrite <- pow2_add. replace (a - b - 1 + (b + 1))%Z with a by lia.
    eapply Qle_lt_trans; [exact Qa1 |].
    rewrite <- Hxd. apply Qmult_lt_l; [exact Hx | exact Qb2]. }
  destruct (Qle_bool (pow2 (a - b)) (n # d)) eqn:E.
  - apply Qle_bool_iff in E. split; [exact E | exact Hup].
  - split; [apply Qlt_le_weak; exact Hlo |].
    replace (a - b - 1 + 1)%Z with (a - b)%Z by lia.
    apply Qnot_le_lt. intros H. apply Qle_bool_iff in H. congruence.
Qed.

Lemma ilog2_unique x e :
  pow2 e <= x -> x < pow2 (e + 1) -> ilog2 x = e.
Proof.
  intros H1 H2.
  assert (Hx : 0 < x) by (eapply Qlt_le_trans; [apply pow2_pos | exact H1]).
  destruct (ilog2_spec x Hx) as [H3 H4].
  assert (ilog2 x < e + 1)%Z
    by (apply pow2_lt_inv; eapply Qle_lt_trans; eauto).
  assert (e < ilog2 x + 1)%Z
    by (apply pow2_lt_inv; eapply Qle_lt_trans; eauto).
  lia.
Qed.

Lemma ilog2_mono x y : 0 < x -> x <= y -> (ilog2 x <= ilog2 y)%Z.
Proof.
  intros Hx Hxy.
  assert (Hy : 0 < y) by (eapply Qlt_le_trans; eauto).
  destruct (ilog2_spec x Hx) as [H1 _], (ilog2_spec y Hy) as [_ H2].
  assert (ilog2 x < ilog2 y + 1)%Z; [| lia].
  apply pow2_lt_inv. eapply Qle_lt_trans; [exact H1 |].
  eapply Qle_lt_trans; eauto.
Qed.

Lemma ilog2_comp x y : 0 < x -> x == y -> ilog2 x = ilog2 y.
Proof.
  intros Hx E. symmetry. 
  destruct (ilog2_spec x Hx) as [H1 H2].
  apply ilog2_unique; rewrite <- E; assumption.
Qed.

(** *** Rounding to the nearest integer *)

Ltac push_inject :=
  unfold Z.sub;
  rewrite ?inject_Z_plus, ?inject_Z_opp, ?inject_Z_mult;
  change (inject_Z 1) with 1.

Lemma Qfloor_bounds x : inject_Z (Qfloor x) <= x /\ x < inject_Z (Qfloor x) + 1.
Proof.
  split; [apply Qfloor_le |].
  pose proof (Qlt_floor x) as H. rewrite inject_Z_plus in H. exact H.
Qed.

Lemma Qfloor_unique x z : inject_Z z <= x -> x < inject_Z z + 1 -> Qfloor x = z.
Proof.
  intros H1 H2. destruct (Qfloor_bounds x) as [H3 H4].
  assert (A : inject_Z z < inject_Z (Qfloor x + 1))
    by (rewrite inject_Z_plus; change (inject_Z 1) with 1; lra).
  assert (B : inject_Z (Qfloor x) < inject_Z (z + 1))
    by (rewrite inject_Z_plus; change (inject_Z 1) with 1; lra).
  rewrite <- Zlt_Qlt in A, B. lia.
Qed.

Lemma rne_cases x :
  let f := Qfloor x in
  (x - inject_Z f < 1 # 2 /\ rne x = f) \/
  (1 # 2 < x - inject_Z f /\ rne x = (f + 1)%Z) \/
  (x - inject_Z f == 1 # 2 /\ rne x = if Z.even f then f else (f + 1)%Z).
Proof.
  intros f. unfold rne. fold f.
  destruct (Qcompare_spec (x - inject_Z f) (1 # 2)) as [E | E | E].
  - right. right. split; [exact E | reflexivity].
  - left. split; [exact E | reflexivity].
  - right. left. split; [exact E | reflexivity].
Qed.

Lemma rne_err x :
  x - (1 # 2) <= inject_Z (rne x) /\ inject_Z (rne x) <= x + (1 # 2).
Proof.
  destruct (Qfloor_bounds x) as [H1 H2].
  destruct (rne_cases x) as [[H E] | [[H E] | [H E]]]; rewrite E.
  - lra.
  - push_inject. lra.
  - destruct (Z.even (Qfloor x)).
    + lra.
    + push_inject. lra.
Qed.

Lemma rne_comp x y : x == y -> rne x = rne y.
Proof.
  intros E. unfold rne.
  assert (Ef : Qfloor x = Qfloor y) by (rewrite E; reflexivity).
  rewrite Ef.
  assert (Ec : Qcompare (x - inject_Z (Qfloor y)) (1 # 2)
               = Qcompare (y - inject_Z (Qfloor y)) (1 # 2))
    by (rewrite E; reflexivity).
  rewrite Ec. reflexivity.
Qed.

Lemma rne_Z z : rne (inject_Z z) = z.
Proof.
  destruct (rne_cases (inject_Z z)) as [[H E] | [[H E] | [H E]]];
    rewrite Qfloor_Z in *.
  - exact E.
  - exfalso. lra.
  - exfalso. lra.
Qed.

Lemma rne_mono x y : x <= y -> (rne x <= rne y)%Z.
Proof.
  intros Hxy.
  pose proof (Qfloor_resp_le x y Hxy) as Hf.
  destruct (Qfloor_bounds x) as [X1 X2], (Qfloor_bounds y) as [Y1 Y2].
  assert (Hx : (rne x <= Qfloor x + 1)%Z).
  { destruct (rne_cases x) as [[_ E] | [[_ E] | [_ E]]]; rewrite E;
      try destruct (Z.even _); lia. }
  assert (Hy : (Qfloor y <= rne y)%Z).
  { destruct (rne_cases y) as [[_ E] | [[_ E] | [_ E]]]; rewrite E;
      try destruct (Z.even _); lia. }
  destruct (Z.eq_dec (Qfloor x) (Qfloor y)) as [Ef | Nf]; [| lia].
  destruct (rne_cases x) as [[Hx' Ex] | [[Hx' Ex] | [Hx' Ex]]];
  destruct (rne_cases y) as [[Hy' Ey] | [[Hy' Ey] | [Hy' Ey]]];
    rewrite Ex, Ey; rewrite Ef in *;
    try destruct (Z.even (Qfloor y)); try lia; exfalso; lra.
Qed.

Lemma rne_opp x : rne (- x) = (- rne x)%Z.
Proof.
  destruct (Qfloor_bounds x) as [X1 X2].
  set (f := Qfloor x) in *.
  destruct (Qeq_dec x (inject_Z f)) as [Ei | Ni].
  - rewrite (rne_comp x (inject_Z f) Ei).
    rewrite (rne_comp (- x) (inject_Z (- f))).
    + rewrite !rne_Z. reflexivity.
    + rewrite Ei, inject_Z_opp. reflexivity.
  - assert (X1' : inject_Z f < x).
    { apply Qle_lteq in X1. destruct X1 as [L | E]; [exact L |].
      exfalso. apply Ni. symmetry. exact E. }
    assert (Fo : Qfloor (- x) = (- f - 1)%Z).
    { apply Qfloor_unique; push_inject; lra. }
    assert (Io : inject_Z (Qfloor (- x)) == - inject_Z f - 1).
    { rewrite Fo. push_inject. ring. }
    destruct (rne_cases x) as [[Hx Ex] | [[Hx Ex] | [Hx Ex]]];
    destruct (rne_cases (- x)) as [[Ho Eo] | [[Ho Eo] | [Ho Eo]]];
      fold f in Hx, Ex; rewrite Io in Ho; rewrite Ex, Eo, Fo;
      try (exfalso; lra); try lia.
    replace (- f - 1)%Z with (- Z.succ f)%Z by lia.
    rewrite Z.even_opp, Z.even_succ, <- Z.negb_even.
    destruct (Z.even f); cbn; lia.
Qed.

(** *** Rounding to 53 bits *)

Lemma Qabs_nonzero x : ~ x == 0 -> 0 < Qabs x.
Proof.
  intros N. pose proof (Qabs_nonneg x) as H.
  apply Qle_lteq in H. destruct H as [H | H]; [exact H |].
  exfalso. apply N. symmetry in H.
  assert (L : Qabs x <= 0) by (rewrite H; apply Qle_refl).
  apply Qabs_Qle_condition in L. lra.
Qed.

Lemma round64_zero x : x == 0 -> round64 x = 0.
Proof.
  intros E. unfold round64.
  apply Qeq_bool_iff in E. rewrite E. reflexivity.
Qed.

Lemma round64_scaled x :
  ~ x == 0 ->
  round64 x == inject_Z (rne (x / pow2 (ulp_exp x))) * pow2 (ulp_exp x).
Proof.
  intros N. unfold round64.
  destruct (Qeq_bool x 0) eqn:E.
  - apply Qeq_bool_iff in E. contradiction.
  - apply Qred_correct.
Qed.

Lemma ulp_exp_pos x : 0 < x -> ulp_exp x = Z.max (ilog2 x - 52) (-1074).
Proof.
  intros Hx. unfold ulp_exp. f_equal. f_equal.
  apply ilog2_comp.
  - rewrite Qabs_pos; lra.
  - apply Qabs_pos. lra.
Qed.

Lemma ulp_exp_comp x y : ~ x == 0 -> x == y -> ulp_exp x = ulp_exp y.
Proof.
  intros N E. unfold ulp_exp. f_equal. f_equal.
  apply ilog2_comp.
  - apply Qabs_nonzero, N.
  - rewrite E. reflexivity.
Qed.

Lemma round64_comp x y : x == y -> round64 x = round64 y.
Proof.
  intros E. destruct (Qeq_dec x 0) as [Z | N].
  - rewrite (round64_zero x Z), (round64_zero y); [reflexivity |].
    apply Qeq_trans with x; [symmetry; exact E | exact Z].
  - assert (Ny : ~ y == 0).
    { intros H. apply N. apply Qeq_trans with y; assumption. }
    unfold round64.
    destruct (Qeq_bool x 0) eqn:Ex; [apply Qeq_bool_iff in Ex; contradiction |].
    destruct (Qeq_bool y 0) eqn:Ey; [apply Qeq_bool_iff in Ey; contradiction |].
    apply Qred_complete.
    rewrite <- (ulp_exp_comp x y N E).
    rewrite (rne_comp (y / pow2 (ulp_exp x)) (x / pow2 (ulp_exp x)));
      [reflexivity |].
    unfold Qdiv. apply Qmult_comp; [symmetry; exact E | reflexivity].
Qed.

#[global] Instance round64_proper : Proper (Qeq ==> Qeq) round64.
Proof. intros x y E. rewrite (round64_comp x y E). reflexivity. Qed.

Lemma round64_nonneg x : 0 <= x -> 0 <= round64 x.
Proof.
  intros Hx. destruct (Qeq_dec x 0) as [Z | N].
  - rewrite (round64_zero x Z). apply Qle_refl.
  - rewrite (round64_scaled x N).
    apply Qmult_le_0_compat; [| apply Qlt_le_weak, pow2_pos].
    change 0 with (inject_Z 0). rewrite <- Zle_Qle.
    rewrite <- (rne_Z 0). apply rne_mono.
    apply Qle_shift_div_l; [apply pow2_pos |].
    change (inject_Z 0) with 0. lra.
Qed.

Lemma round64_upper x : 0 < x -> round64 x <= pow2 (ilog2 x + 1).
Proof.
  intros Hx.
  assert (N : ~ x == 0) by lra.
  destruct (ilog2_spec x Hx) as [_ Hup].
  rewrite (round64_scaled x N).
  set (k := ulp_exp x). set (e := ilog2 x) in *.
  pose proof (pow2_pos k) as Hk.
  assert (Hs : x / pow2 k < pow2 (e + 1 - k)).
  { apply Qlt_shift_div_r; [exact Hk |].
    rewrite <- pow2_add. replace (e + 1 - k + k)%Z with (e + 1)%Z by lia.
    exact Hup. }
  destruct (Z_le_gt_dec 0 (e + 1 - k)) as [Hpos | Hneg].
  - rewrite (pow2_Z _ Hpos) in Hs.
    assert (Hm : (rne (x / pow2 k) <= 2 ^ (e + 1 - k))%Z).
    { rewrite <- (rne_Z (2 ^ (e + 1 - k))). apply rne_mono. lra. }
    rewrite Zle_Qle in Hm. rewrite <- (pow2_Z _ Hpos) in Hm.
    replace (e + 1)%Z with (e + 1 - k + k)%Z at 1 by lia.
    rewrite pow2_add. apply Qmult_le_compat_r; [exact Hm | lra].
  - assert (Hh : pow2 (e + 1 - k) <= 1 # 2).
    { change (1 # 2) with (pow2 (-1)). apply pow2_le. lia. }
    assert (Hm : (rne (x / pow2 k) <= 0)%Z).
    { change 0%Z with (rne (1 # 2)). apply rne_mono. lra. }
    rewrite Zle_Qle in Hm. change (inject_Z 0) with 0 in Hm.
    pose proof (pow2_pos (e + 1)).
    assert (inject_Z (rne (x / pow2 k)) * pow2 k <= 0); [| lra].
    rewrite <- (Qmult_0_l (pow2 k)).
    apply Qmult_le_compat_r; [exact Hm | lra].
Qed.

Lemma round64_lower x :
  0 < x -> (-1074 <= ilog2 x - 52)%Z -> pow2 (ilog2 x) <= round64 x.
Proof.
  intros Hx Hn.
  assert (N : ~ x == 0) by lra.
  destruct (ilog2_spec x Hx) as [Hlo _].
  rewrite (round64_scaled x N), (ulp_exp_pos x Hx).
  rewrite Z.max_l by lia.
  set (e := ilog2 x) in *.
  pose proof (pow2_pos (e - 52)) as Hk.
  assert (Hs : inject_Z (2 ^ 52) <= x / pow2 (e - 52)).
  { apply Qle_shift_div_l; [exact Hk |].
    rewrite <- pow2_Z by lia. rewrite <- pow2_add.
    replace (52 + (e - 52))%Z with e by lia. exact Hlo. }
  assert (Hm : (2 ^ 52 <= rne (x / pow2 (e - 52)))%Z).
  { rewrite <- (rne_Z (2 ^ 52)) at 1. apply rne_mono. exact Hs. }
  rewrite Zle_Qle in Hm. rewrite <- pow2_Z in Hm by lia.
  replace e with (52 + (e - 52))%Z at 1 by lia.
  rewrite pow2_add. apply Qmult_le_compat_r; [exact Hm | lra].
Qed.

Lemma round64_mono_pos x y : 0 < x -> x <= y -> round64 x <= round64 y.
Proof.
  intros Hx Hxy.
  assert (Hy : 0 < y) by lra.
  pose proof (ilog2_mono x y Hx Hxy) as He.
  destruct (Z.eq_dec (ulp_exp x) (ulp_exp y)) as [Ek | Nk].
  - rewrite (round64_scaled x), (round64_scaled y) by lra.
    rewrite <- Ek. pose proof (pow2_pos (ulp_exp x)) as Hk.
    apply Qmult_le_compat_r; [| lra].
    rewrite <- Zle_Qle. apply rne_mono.
    apply Qmult_le_compat_r; [exact Hxy |].
    apply Qlt_le_weak, Qinv_lt_0_compat, Hk.
  - rewrite (ulp_exp_pos x Hx), (ulp_exp_pos y Hy) in Nk.
    apply Qle_trans with (pow2 (ilog2 x + 1)); [apply round64_upper, Hx |].
    apply Qle_trans with (pow2 (ilog2 y));
      [apply pow2_le; lia | apply round64_lower; [exact Hy | lia]].
Qed.

Lemma round64_opp x : round64 (- x) == - round64 x.
Proof.
  destruct (Qeq_dec x 0) as [Z | N].
  - rewrite (round64_zero x Z), (round64_zero (- x)); [reflexivity |].
    rewrite Z. reflexivity.
  - assert (No : ~ - x == 0) by (intros H; apply N; lra).
    rewrite (round64_scaled x N), (round64_scaled (- x) No).
    assert (Ek : ulp_exp (- x) = ulp_exp x).
    { unfold ulp_exp. f_equal. f_equal. apply ilog2_comp.
      - rewrite Qabs_opp. apply Qabs_nonzero, N.
      - apply Qabs_opp. }
    rewrite Ek.
    rewrite (rne_comp (- x / pow2 (ulp_exp x)) (- (x / pow2 (ulp_exp x)))).
    + rewrite rne_opp, inject_Z_opp. ring.
    + unfold Qdiv. ring.
Qed.

Lemma round64_mono x y : x <= y -> round64 x <= round64 y.
Proof.
  intros Hxy.
  destruct (Qlt_le_dec 0 x) as [Hx | Hx]; [apply round64_mono_pos; assumption |].
  destruct (Qlt_le_dec y 0) as [Hy | Hy].
  - assert (H : round64 (- y) <= round64 (- x))
      by (apply round64_mono_pos; lra).
    rewrite !round64_opp in H. lra.
  - pose proof (round64_nonneg y Hy).
    assert (H0 : 0 <= round64 (- x)) by (apply round64_nonneg; lra).
    rewrite round64_opp in H0. lra.
Qed.

Lemma round64_err x :
  Qabs (round64 x - x) <= (1 # 2) * pow2 (ulp_exp x).
Proof.
  pose proof (pow2_pos (ulp_exp x)) as Hk.
  destruct (Qeq_dec x 0) as [Z | N].
  - rewrite (round64_zero x Z). apply Qabs_Qle_condition. lra.
  - rewrite (round64_scaled x N).
    set (k := ulp_exp x) in *.
    destruct (rne_err (x / pow2 k)) as [H1 H2].
    assert (E : x == (x / pow2 k) * pow2 k) by (field; lra).
    set (q := x / pow2 k) in *. set (m := inject_Z (rne q)) in *.
    assert (A : 0 <= (m - q + (1 # 2)) * pow2 k)
      by (apply Qmult_le_0_compat; lra).
    assert (B : 0 <= (q + (1 # 2) - m) * pow2 k)
      by (apply Qmult_le_0_compat; lra).
    apply Qabs_Qle_condition. split; lra.
Qed.

Lemma ulp_exp_small x : Qabs x < 8 -> (ulp_exp x <= -50)%Z.
Proof.
  intros Hx. unfold ulp_exp.
  destruct (Qeq_dec x 0) as [Z | N].
  - assert (E : (ilog2 (Qabs x) <= 0)%Z); [| lia].
    unfold ilog2. destruct x as [n d]. unfold Qeq in Z. cbn in Z.
    assert (En : n = 0%Z) by lia. subst n. cbn [Qabs Qnum Qden].
    pose proof (Z.log2_nonneg (Zpos d)).
    change (Z.log2 (Z.abs 0)) with 0%Z.
    destruct (Qle_bool _ _); lia.
  - destruct (ilog2_spec _ (Qabs_nonzero x N)) as [H1 _].
    assert (ilog2 (Qabs x) < 3)%Z; [| lia].
    apply pow2_lt_inv. change (pow2 3) with 8. lra.
Qed.

Lemma round64_err_small x :
  Qabs x < 8 -> Qabs (round64 x - x) <= pow2 (-51).
Proof.
  intros Hx. eapply Qle_trans; [apply round64_err |].
  pose proof (pow2_le _ _ (ulp_exp_small x Hx)) as H.
  change (pow2 (-51)) with ((1 # 2) * pow2 (-50)). lra.
Qed.

(** Rounding at most doubles a number (it can round up past a small
    subnormal, never further). *)
Lemma round64_le_twice x : 0 <= x -> round64 x <= 2 * x.
Proof.
  intros Hx. destruct (Qeq_dec x 0) as [Z | N].
  - rewrite (round64_zero x Z). lra.
  - rewrite (round64_scaled x N).
    set (k := ulp_exp x). pose proof (pow2_pos k) as Hk.
    assert (E : x == (x / pow2 k) * pow2 k) by (field; lra).
    assert (Hq : 0 <= x / pow2 k).
    { apply Qle_shift_div_l; [exact Hk | lra]. }
    set (q := x / pow2 k) in *.
    assert (Hm : inject_Z (rne q) <= 2 * q).
    { destruct (Qlt_le_dec q (1 # 2)) as [S | L].
      - assert (M : (rne q <= 0)%Z).
        { change 0%Z with (rne (1 # 2)). apply rne_mono. lra. }
        rewrite Zle_Qle in M. change (inject_Z 0) with 0 in M. lra.
      - destruct (rne_err q) as [_ U]. lra. }
    assert (A : 0 <= (2 * q - inject_Z (rne q)) * pow2 k)
      by (apply Qmult_le_0_compat; lra).
    lra.
Qed.

Lemma round64_ge_twice x : x <= 0 -> 2 * x <= round64 x.
Proof.
  intros Hx.
  assert (H : round64 (- x) <= 2 * - x) by (apply round64_le_twice; lra).
  rewrite round64_opp in H. lra.
Qed.

Lemma round64_nonpos x : x <= 0 -> round64 x <= 0.
Proof.
  intros Hx.
  assert (H : 0 <= round64 (- x)) by (apply round64_nonneg; lra).
  rewrite round64_opp in H. lra.
Qed.

(** A double between the exact result and a bound stays a bound. *)
Lemma round64_le_double x d : is_double d -> x <= d -> round64 x <= d.
Proof.
  intros Hd Hx. unfold is_double in Hd. rewrite <- Hd.
  apply round64_mono, Hx.
Qed.

Lemma round64_ge_double x d : is_double d -> d <= x -> d <= round64 x.
Proof.
  intros Hd Hx. unfold is_double in Hd. rewrite <- Hd at 1.
  apply round64_mono, Hx.
Qed.

(** The largest double below 1 is 1 - 2^-53. *)
Lemma double_below_one r : is_double r -> r < 1 -> r <= 1 - pow2 (-53).
Proof.
  intros Hd H1. change (pow2 (-53)) with (1 # 9007199254740992).
  destruct (Qlt_le_dec r (1 # 2)) as [S | L]; [lra |].
  assert (Hr : 0 < r) by lra.
  assert (Ee : ilog2 r = (-1)%Z).
  { apply ilog2_unique; [exact L | exact H1]. }
  assert (Ek : ulp_exp r = (-53)%Z).
  { rewrite (ulp_exp_pos r Hr), Ee. reflexivity. }
  unfold is_double in Hd. rewrite round64_scaled in Hd by lra.
  rewrite Ek in Hd. set (m := rne (r / pow2 (-53))) in *.
  change (pow2 (-53)) with (1 # 9007199254740992) in Hd.
  assert (Hm : inject_Z m < inject_Z 9007199254740992).
  { change (inject_Z 9007199254740992) with 9007199254740992. lra. }
  rewrite <- Zlt_Qlt in Hm.
  assert (Hm' : inject_Z m <= inject_Z 9007199254740991)
    by (rewrite <- Zle_Qle; lia).
  change (inject_Z 9007199254740991) with 9007199254740991 in Hm'. lra.
Qed.

End Rounding.

(** *** Agreement with the Standard Library's specification *)

Example round64_agrees_with_SpecFloat :
  forallb (Binary64.agree (SFadd 53 1024) JS.add) Binary64.samples = true /\
  forallb (Binary64.agree (SFsub 53 1024) JS.sub) Binary64.samples = true /\
  forallb (Binary64.agree (SFmul 53 1024) JS.mul) Binary64.samples = true /\
  forallb (Binary64.agree (SFdiv 53 1024) JS.div) Binary64.samples = true.
Proof. repeat split; vm_compute; reflexivity. Qed.

(** The literals of the source, against their published bit patterns. *)
Example literals_are_the_known_doubles :
  (JS.lit (8 # 100) == 0x147AE147AE147B # 72057594037927936)%Q /\
  (JS.lit (1 # 1000) == 0x10624DD2F1A9FC # 4611686018427387904)%Q /\
  (JS.lit (35 # 100) == 0x16666666666666 # 18014398509481984)%Q /\
  (JS.lit (7 # 10) == 0x16666666666666 # 9007199254740992)%Q.
Proof. repeat split; vm_compute; reflexivity. Qed.

(** From here on rounding is used through its lemmas and by evaluation. *)
Opaque JS.round64.

(** Comparisons between closed numbers are settled by evaluation. *)
Ltac closed_cmp := vm_compute; first [reflexivity | discriminate].

(** ** The seeded random sequence *)

Section RngFacts.

Import JS Rng.
Local Open Scope Q_scope.

Lemma mul_mono a a' b b' :
  0 <= a -> a <= a' -> 0 <= b -> b <= b' -> mul a b <= mul a' b'.
Proof.
  intros Ha Haa Hb Hbb. apply round64_mono.
  apply Qle_trans with (a' * b).
  - apply Qmult_le_compat_r; assumption.
  - rewrite !(Qmult_comm a'). apply Qmult_le_compat_r; lra.
Qed.

Lemma add_mono a a' b b' : a <= a' -> b <= b' -> add a b <= add a' b'.
Proof. intros Ha Hb. apply round64_mono. lra. Qed.

Lemma mul_nonneg a b : 0 <= a -> 0 <= b -> 0 <= mul a b.
Proof.
  intros Ha Hb. apply round64_nonneg. apply Qmult_le_0_compat; assumption.
Qed.

Lemma toUint32_range a : (0 <= toUint32 a < two32)%Z.
Proof. unfold toUint32. apply Z.mod_pos_bound. reflexivity. Qed.

Lemma ushr_range a n :
  exists u, ushr a n = int u /\ (0 <= u < two32)%Z.
Proof.
  unfold ushr. eexists. split; [reflexivity |].
  pose proof (toUint32_range a) as Ha.
  assert (Hn : (0 <= toUint32 n mod 32)%Z)
    by (apply Z.mod_pos_bound; reflexivity).
  rewrite Z.shiftr_div_pow2 by exact Hn.
  assert (Hp : (0 < 2 ^ (toUint32 n mod 32))%Z)
    by (apply Z.pow_pos_nonneg; lia).
  split.
  - apply Z.div_pos; lia.
  - apply Z.le_lt_trans with (toUint32 a); [| lia].
    apply Z.div_le_upper_bound; [lia |]. nia.
Qed.

Lemma next_value state : exists u,
  fst (next state) = div (int u) (int 4294967296) /\ (0 <= u < two32)%Z.
Proof.
  unfold next. cbn [fst]. 
  match goal with |- context [div (ushr ?a ?n) _] =>
    destruct (ushr_range a n) as (u & E & Hu) end.
  exists u. rewrite E. split; [reflexivity | exact Hu].
Qed.

Lemma next_range state : 0 <= fst (next state) /\ fst (next state) <= max_draw.
Proof.
  destruct (next_value state) as (u & E & Hu). rewrite E.
  unfold div, int, two32 in *. split.
  - apply round64_nonneg. apply Qle_shift_div_l; [reflexivity |].
    rewrite Qmult_0_l. change 0 with (inject_Z 0). rewrite <- Zle_Qle. lia.
  - change max_draw with (round64 (inject_Z 4294967295 / inject_Z 4294967296)).
    apply round64_mono. apply Qmult_le_compat_r; [| discriminate].
    rewrite <- Zle_Qle. lia.
Qed.

Lemma next_split state : exists r state',
  next state = (r, state') /\ 0 <= r /\ r <= max_draw.
Proof.
  destruct (next state) as [r state'] eqn:E. exists r, state'.
  pose proof (next_range state) as H. rewrite E in H. cbn in H.
  split; [reflexivity | exact H].
Qed.

Lemma draw_range seed n : 0 <= draw seed n /\ draw seed n < 1.
Proof.
  unfold draw. destruct (next_range (advance n (createRng seed))) as [H1 H2].
  split; [exact H1 |]. eapply Qle_lt_trans; [exact H2 | reflexivity].
Qed.

(** The integer operators on operands with the sign bit set. *)
Example int32_operators :
  toInt32 (int 2147483648) = (-2147483648)%Z /\
  toUint32 (int (-1)) = 4294967295%Z /\
  ushr (int (-1)) (int 0) = int 4294967295 /\
  ushr (int (-1)) (int 33) = int 2147483647 /\
  bxor (int (-1)) (int 5) = int (-6) /\
  bor (int 2147483648) (int 1) = int (-2147483647) /\
  imul (int 4294967295) (int 5) = int (-5) /\
  imul (int 65536) (int 65536) = int 0 /\
  toInt32 (add (int 4294967295) (int 1831565813)) = 1831565812%Z.
Proof. repeat split; vm_compute; reflexivity. Qed.

(** The published first values of the sequence for seed 0. *)
Example draw_seed_0 :
  draw 0 0 = (572152369 # 2147483648) /\ draw 0 1 = (1416247 # 4294967296).
Proof. split; vm_compute; reflexivity. Qed.

End RngFacts.

(** ** Two generators from one seed *)

Section ClosureFacts.

Import JS.

Lemma outputs_cons_eq g v log :
  Closures.outputs g ((g, v) :: log) = v :: Closures.outputs g log.
Proof.
  unfold Closures.outputs. rewrite filter_cons_True by reflexivity.
  reflexivity.
Qed.

Lemma outputs_cons_ne g h v log :
  h <> g -> Closures.outputs g ((h, v) :: log) = Closures.outputs g log.
Proof.
  intros N. unfold Closures.outputs. rewrite filter_cons_False; [reflexivity |].
  cbn. exact N.
Qed.

(** A generator's log is the sequence its own cell determines, whatever the
    other generators of the heap are asked in between. *)
Lemma calls_outputs g gs : forall heap state,
  heap !! g = Some state ->
  Closures.outputs g (Closures.calls gs heap)
  = map (fun k => fst (Rng.next (Rng.advance k state)))
        (seq 0 (Closures.times g gs)).
Proof.
  induction gs as [| h gs IH]; intros heap state Hg; [reflexivity |].
  cbn [Closures.calls]. unfold Closures.call, Closures.times.
  destruct (decide (h = g)) as [-> | N].
  - rewrite Hg. destruct (Rng.next state) as [v state'] eqn:E.
    rewrite outputs_cons_eq, filter_cons_True by reflexivity.
    cbn [length seq map Rng.advance]. rewrite E. cbn [fst]. f_equal.
    rewrite (IH _ state') by apply lookup_insert_eq.
    rewrite <- seq_shift, map_map. cbn [Rng.advance]. rewrite E.
    reflexivity.
  - rewrite filter_cons_False by exact N.
    destruct (heap !! h) as [other |] eqn:Eh.
    + destruct (Rng.next other) as [v other'].
      rewrite outputs_cons_ne by exact N.
      apply IH. rewrite lookup_insert_ne by exact N. exact Hg.
    + apply IH. exact Hg.
Qed.

(** C1. Two generator functions made by [createRng] from the same seed return
    the same sequence: however the calls to the two are interleaved, the
    values each has returned are the first values of the one sequence
    [draw seed 0, draw seed 1, ...], which depends on the seed and on the
    number of calls only. *)
Theorem createRng_same_seed_same_sequence :
  forall (seed : number) (heap : gmap nat number) (gs : list nat),
    let '(g1, heap1) := Closures.createRng seed heap in
    let '(g2, heap2) := Closures.createRng seed heap1 in
    let log := Closures.calls gs heap2 in
    g1 <> g2 /\
    Closures.outputs g1 log
    = map (Rng.draw seed) (seq 0 (Closures.times g1 gs)) /\
    Closures.outputs g2 log
    = map (Rng.draw seed) (seq 0 (Closures.times g2 gs)).
Proof.
  intros seed heap gs. unfold Closures.createRng.
  set (g1 := fresh (dom heap)).
  set (heap1 := <[ g1 := Rng.createRng seed ]> heap).
  set (g2 := fresh (dom heap1)).
  assert (N : g1 <> g2).
  { intros E. apply (is_fresh (dom heap1)). fold g2. rewrite <- E.
    unfold heap1. rewrite dom_insert_L. set_solver. }
  split; [exact N |]. split.
  - apply calls_outputs.
    rewrite lookup_insert_ne by (intros E; apply N; symmetry; exact E).
    apply lookup_insert_eq.
  - apply calls_outputs. apply lookup_insert_eq.
Qed.

End ClosureFacts.

(** ** The star layer generator *)

Section StarFacts.

Import JS Rng.
Local Open Scope Q_scope.

(** Take one value from the generator in the goal. *)
Ltac take_draw s r s' H :=
  let E := fresh "E" in
  destruct (next_split s) as (r & s' & E & H); rewrite E; clear E.

Lemma createStarPositions_lookup (count so : Z) (i : nat) :
  (Z.of_nat i < count)%Z ->
  Stars.createStarPositions count so !! i = Some (Stars.star so (Z.of_nat i)).
Proof.
  intros H. unfold Stars.createStarPositions.
  rewrite list_lookup_fmap, lookup_seq_lt by lia. reflexivity.
Qed.

Lemma createStarPositionsV_lookup (count so : Z) (i : nat) :
  (Z.of_nat i < count)%Z ->
  StarsV.createStarPositions count so !! i
  = Some (StarsV.star so (Z.of_nat i)).
Proof.
  intros H. unfold StarsV.createStarPositions.
  rewrite list_lookup_fmap, lookup_seq_lt by lia. reflexivity.
Qed.

(** C2. The descriptor at index [i] is a function of [(seedOffset, i)] alone:
    it is what the callback computes from a fresh generator seeded with
    [seedOffset + i * 17], so two layers generated with any two counts above
    [i] hold the very same descriptor at [i].  Both revisions. *)
Theorem star_is_function_of_seedOffset_and_index :
  forall (seedOffset count1 count2 : Z) (i : nat),
    (Z.of_nat i < count1)%Z -> (Z.of_nat i < count2)%Z ->
    let seed := add (int seedOffset) (mul (int (Z.of_nat i)) (int 17)) in
    (Stars.createStarPositions count1 seedOffset !! i
     = Some (run (Stars.starFields seedOffset (Z.of_nat i)) seed) /\
     Stars.createStarPositions count2 seedOffset !! i
     = Stars.createStarPositions count1 seedOffset !! i) /\
    (StarsV.createStarPositions count1 seedOffset !! i
     = Some (run (StarsV.starFields seedOffset (Z.of_nat i)) seed) /\
     StarsV.createStarPositions count2 seedOffset !! i
     = StarsV.createStarPositions count1 seedOffset !! i).
Proof.
  intros so c1 c2 i H1 H2 seed.
  rewrite !createStarPositions_lookup, !createStarPositionsV_lookup by assumption.
  repeat split; reflexivity.
Qed.

Lemma star_is_function_witness :
  Stars.createStarPositions 55 311 !! 3%nat
  = Stars.createStarPositions 7 311 !! 3%nat.
Proof.
  assert (H1 : (Z.of_nat 3 < 55)%Z) by lia.
  assert (H2 : (Z.of_nat 3 < 7)%Z) by lia.
  destruct (star_is_function_of_seedOffset_and_index 311 55 7 3 H1 H2)
    as [[_ H] _].
  symmetry. exact H.
Defined.

(** Bounds of [r * b] and [a + r * b] for a draw [r] between 0 and [m]: by
    monotonicity of rounding they follow from the values at the two ends of
    the range of [r], which are closed numbers. *)
Lemma scaled_range m b hi r :
  0 <= r /\ r <= m -> 0 <= b -> mul m b < hi ->
  0 <= mul r b /\ mul r b < hi.
Proof.
  intros [H1 H2] Hb Hhi. split; [apply mul_nonneg; assumption |].
  apply Qle_lt_trans with (mul m b); [| exact Hhi].
  apply mul_mono; try assumption. apply Qle_refl.
Qed.

Lemma affine_range_le m a b lo hi r :
  0 <= r /\ r <= m -> 0 <= b ->
  lo <= add a (mul 0 b) -> add a (mul m b) <= hi ->
  lo <= add a (mul r b) /\ add a (mul r b) <= hi.
Proof.
  intros [H1 H2] Hb Hlo Hhi. split.
  - apply Qle_trans with (add a (mul 0 b)); [exact Hlo |].
    apply add_mono; [apply Qle_refl |].
    apply mul_mono; try assumption; apply Qle_refl.
  - apply Qle_trans with (add a (mul m b)); [| exact Hhi].
    apply add_mono; [apply Qle_refl |].
    apply mul_mono; try assumption; apply Qle_refl.
Qed.

Lemma affine_range m a b lo hi r :
  0 <= r /\ r <= m -> 0 <= b ->
  lo <= add a (mul 0 b) -> add a (mul m b) < hi ->
  lo <= add a (mul r b) /\ add a (mul r b) < hi.
Proof.
  intros Hr Hb Hlo Hhi.
  destruct (affine_range_le m a b lo (add a (mul m b)) r Hr Hb Hlo
              (Qle_refl _)) as [A B].
  split; [exact A |]. eapply Qle_lt_trans; [exact B | exact Hhi].
Qed.

Ltac scaled H :=
  apply (scaled_range max_draw); [exact H | closed_cmp | closed_cmp].
Ltac affine H :=
  apply (affine_range max_draw);
  [exact H | closed_cmp | closed_cmp | closed_cmp].

Lemma star_range so i :
  let s := Stars.star so i in
  (0 <= Stars.top s /\ Stars.top s < 100) /\
  (0 <= Stars.left s /\ Stars.left s < 100) /\
  (lit (35 # 100) <= Stars.scale s /\ Stars.scale s < lit (135 # 100)) /\
  (0 <= Stars.twinkleDelay s /\ Stars.twinkleDelay s < 14) /\
  (3 <= Stars.twinkleDuration s /\ Stars.twinkleDuration s < lit (85 # 10)).
Proof.
  unfold Stars.star, run. generalize (createRng (Stars.starSeed so i)).
  intros s0. unfold Stars.starFields, mbind, Rand_bind, bind, random.
  take_draw s0 r1 s1 H1. take_draw s1 r2 s2 H2. take_draw s2 r3 s3 H3.
  take_draw s3 r4 s4 H4. take_draw s4 r5 s5 H5.
  cbn.
  split; [scaled H1 |]. split; [scaled H2 |]. split; [affine H3 |].
  split; [scaled H4 | affine H5].
Qed.

(** The variant: the fields it shares with the reference revision, the
    colour class picked by the threshold draw, the glow and the jitter. *)
Lemma starV_range so i :
  let s := StarsV.star so i in
  let t := StarsV.colorType so i in
  ((0 <= StarsV.top s /\ StarsV.top s < 100) /\
   (0 <= StarsV.left s /\ StarsV.left s < 100) /\
   (lit (35 # 100) <= StarsV.scale s /\ StarsV.scale s < lit (135 # 100)) /\
   (0 <= StarsV.twinkleDelay s /\ StarsV.twinkleDelay s < 14) /\
   (3 <= StarsV.twinkleDuration s /\
    StarsV.twinkleDuration s < lit (85 # 10))) /\
  (0 <= t /\ t < 1) /\
  (if ltb t (lit (7 # 10)) then
     (200 <= StarsV.colorHue s /\ StarsV.colorHue s < 220) /\
     (20 <= StarsV.colorSaturation s /\ StarsV.colorSaturation s < 50)
   else if ltb t (lit (9 # 10)) then
     StarsV.colorHue s = 0 /\ StarsV.colorSaturation s = 0
   else
     (30 <= StarsV.colorHue s /\ StarsV.colorHue s < 60) /\
     (40 <= StarsV.colorSaturation s /\ StarsV.colorSaturation s < 80)) /\
  (lit (6 # 10) <= StarsV.glowIntensity s /\ StarsV.glowIntensity s < 1) /\
  (0 <= StarsV.shapeVariation s /\ StarsV.shapeVariation s < 1).
Proof.
  unfold StarsV.star, StarsV.colorType, run, draw.
  generalize (createRng (StarsV.starSeed so i)). intros s0.
  unfold StarsV.starFields, mbind, Rand_bind, bind, random.
  cbn [advance].
  take_draw s0 r1 s1 H1. cbn [snd]. take_draw s1 r2 s2 H2. cbn [snd].
  take_draw s2 r3 s3 H3. cbn [snd]. take_draw s3 r4 s4 H4. cbn [snd].
  take_draw s4 r5 s5 H5. cbn [snd]. take_draw s5 t s6 Ht. cbn [fst].
  assert (Hlt : forall r, 0 <= r /\ r <= max_draw -> 0 <= r /\ r < 1).
  { intros r [A B]. split; [exact A |].
    eapply Qle_lt_trans; [exact B | reflexivity]. }
  unfold StarsV.starColor.
  destruct (ltb t (lit (7 # 10))); [| destruct (ltb t (lit (9 # 10)))];
    unfold mbind, mret, Rand_bind, Rand_ret, bind, ret, random.
  - take_draw s6 c1 s7 Hc1. take_draw s7 c2 s8 Hc2.
    take_draw s8 r6 s9 H6. take_draw s9 r7 s10 H7. cbn.
    split; [split; [scaled H1 |]; split; [scaled H2 |];
            split; [affine H3 |]; split; [scaled H4 | affine H5] |].
    split; [apply Hlt, Ht |].
    split; [split; [affine Hc1 | affine Hc2] |].
    split; [affine H6 | apply Hlt, H7].
  - take_draw s6 r6 s7 H6. take_draw s7 r7 s8 H7. cbn.
    split; [split; [scaled H1 |]; split; [scaled H2 |];
            split; [affine H3 |]; split; [scaled H4 | affine H5] |].
    split; [apply Hlt, Ht |].
    split; [split; reflexivity |].
    split; [affine H6 | apply Hlt, H7].
  - take_draw s6 c1 s7 Hc1. take_draw s7 c2 s8 Hc2.
    take_draw s8 r6 s9 H6. take_draw s9 r7 s10 H7. cbn.
    split; [split; [scaled H1 |]; split; [scaled H2 |];
            split; [affine H3 |]; split; [scaled H4 | affine H5] |].
    split; [apply Hlt, Ht |].
    split; [split; [affine Hc1 | affine Hc2] |].
    split; [affine H6 | apply Hlt, H7].
Qed.

(** C3. Whatever the count and the seed offset, every descriptor of a layer
    has top and left in [0,100), scale in [0.35,1.35), twinkleDelay in
    [0,14) and twinkleDuration in [3,8.5); the decimal bounds are the
    doubles [0.35], [1.35] and [8.5], as in any test written against the
    code.  Both revisions. *)
Theorem createStarPositions_field_ranges :
  forall count seedOffset : Z,
    Forall (fun s =>
              (0 <= Stars.top s /\ Stars.top s < 100) /\
              (0 <= Stars.left s /\ Stars.left s < 100) /\
              (lit (35 # 100) <= Stars.scale s /\
               Stars.scale s < lit (135 # 100)) /\
              (0 <= Stars.twinkleDelay s /\ Stars.twinkleDelay s < 14) /\
              (3 <= Stars.twinkleDuration s /\
               Stars.twinkleDuration s < lit (85 # 10)))
           (Stars.createStarPositions count seedOffset) /\
    Forall (fun s =>
              (0 <= StarsV.top s /\ StarsV.top s < 100) /\
              (0 <= StarsV.left s /\ StarsV.left s < 100) /\
              (lit (35 # 100) <= StarsV.scale s /\
               StarsV.scale s < lit (135 # 100)) /\
              (0 <= StarsV.twinkleDelay s /\ StarsV.twinkleDelay s < 14) /\
              (3 <= StarsV.twinkleDuration s /\
               StarsV.twinkleDuration s < lit (85 # 10)))
           (StarsV.createStarPositions count seedOffset).
Proof.
  intros count so. split; apply List.Forall_forall; intros s Hs.
  - unfold Stars.createStarPositions in Hs.
    apply in_map_iff in Hs. destruct Hs as (i & <- & _).
    apply star_range.
  - unfold StarsV.createStarPositions in Hs.
    apply in_map_iff in Hs. destruct Hs as (i & <- & _).
    exact (proj1 (starV_range so (Z.of_nat i))).
Qed.

(** C9. In the variant, the colour class of the descriptor at index [i] is
    chosen by the threshold draw [t], the sixth value of the star's
    generator: below 0.7 the hue is in [200,220) and the saturation in
    [20,50); else below 0.9 both are 0; else the hue is in [30,60) and the
    saturation in [40,80).  The glow intensity is in [0.6,1) and the shape
    variation in [0,1).  The thresholds and 0.6 are the source's doubles. *)
Theorem variant_color_classes :
  forall (count seedOffset : Z) (i : nat) (s : StarsV.GeneratedStar),
    StarsV.createStarPositions count seedOffset !! i = Some s ->
    let t := draw (StarsV.starSeed seedOffset (Z.of_nat i)) 5 in
    (0 <= t /\ t < 1) /\
    (if ltb t (lit (7 # 10)) then
       (200 <= StarsV.colorHue s /\ StarsV.colorHue s < 220) /\
       (20 <= StarsV.colorSaturation s /\ StarsV.colorSaturation s < 50)
     else if ltb t (lit (9 # 10)) then
       StarsV.colorHue s = 0 /\ StarsV.colorSaturation s = 0
     else
       (30 <= StarsV.colorHue s /\ StarsV.colorHue s < 60) /\
       (40 <= StarsV.colorSaturation s /\ StarsV.colorSaturation s < 80)) /\
    (lit (6 # 10) <= StarsV.glowIntensity s /\ StarsV.glowIntensity s < 1) /\
    (0 <= StarsV.shapeVariation s /\ StarsV.shapeVariation s < 1).
Proof.
  intros count so i s Hs t.
  assert (Hi : (Z.of_nat i < count)%Z).
  { apply lookup_lt_Some in Hs. unfold StarsV.createStarPositions in Hs.
    rewrite length_map, length_seq in Hs. lia. }
  rewrite createStarPositionsV_lookup in Hs by exact Hi.
  assert (E : s = StarsV.star so (Z.of_nat i)) by congruence.
  subst s. exact (proj2 (starV_range so (Z.of_nat i))).
Qed.

Lemma variant_color_classes_witness :
  let s := StarsV.star 311 3 in
  let t := draw (StarsV.starSeed 311 3) 5 in
  (0 <= t /\ t < 1) /\
  (if ltb t (lit (7 # 10)) then
     (200 <= StarsV.colorHue s /\ StarsV.colorHue s < 220) /\
     (20 <= StarsV.colorSaturation s /\ StarsV.colorSaturation s < 50)
   else if ltb t (lit (9 # 10)) then
     StarsV.colorHue s = 0 /\ StarsV.colorSaturation s = 0
   else
     (30 <= StarsV.colorHue s /\ StarsV.colorHue s < 60) /\
     (40 <= StarsV.colorSaturation s /\ StarsV.colorSaturation s < 80)) /\
  (lit (6 # 10) <= StarsV.glowIntensity s /\ StarsV.glowIntensity s < 1) /\
  (0 <= StarsV.shapeVariation s /\ StarsV.shapeVariation s < 1).
Proof.
  apply (variant_color_classes 4 311 3 (StarsV.star 311 3)).
  reflexivity.
Defined.

Lemma star_id so i :
  Stars.id (Stars.star so i)
  = String.append (toString so) (String.append "-" (toString i)).
Proof. reflexivity. Qed.

Lemma starV_id so i :
  StarsV.id (StarsV.star so i)
  = String.append (toString so) (String.append "-" (toString i)).
Proof.
  unfold StarsV.star, run. generalize (createRng (StarsV.starSeed so i)).
  intros s0. unfold StarsV.starFields, mbind, Rand_bind, bind, random.
  repeat match goal with
         | |- context [next ?s] => destruct (next s) as [? ?]
         end.
  unfold StarsV.starColor.
  destruct (ltb _ _); [| destruct (ltb _ _)];
    unfold mbind, mret, Rand_bind, Rand_ret, bind, ret, random;
    repeat match goal with
           | |- context [next ?s] => destruct (next s) as [? ?]
           end;
    reflexivity.
Qed.







End StarFacts.

(** ** The easing step of the parallax driver *)

Section EasingFacts.

Import JS Parallax.
Local Open Scope Q_scope.

Lemma easing_value : easing = 5764607523034235 # 72057594037927936.
Proof. vm_compute. reflexivity. Qed.

Lemma ulp51_value : pow2 (-51) = 1 # 2251799813685248.
Proof. reflexivity. Qed.

(** One step, up to rounding: the distance shrinks by the factor
    [1 - easing <= 0.92], and the three roundings add at most 3 * 2^-51. *)
Lemma ease_err s t :
  Qabs t <= 2 -> Qabs (t - s) <= 5 ->
  Qabs (t - ease s t) <= (23 # 25) * Qabs (t - s) + 3 * pow2 (-51).
Proof.
  intros Ht Hd. unfold ease, add, mul, sub.
  rewrite easing_value, ulp51_value.
  apply Qabs_Qle_condition in Ht. apply Qabs_Qle_condition in Hd.
  set (x1 := round64 (t - s)).
  assert (E1 : Qabs (x1 - (t - s)) <= pow2 (-51)).
  { apply round64_err_small. apply Qabs_Qlt_condition. lra. }
  rewrite ulp51_value in E1. apply Qabs_Qle_condition in E1.
  set (c := 5764607523034235 # 72057594037927936) in *.
  set (x2 := round64 (x1 * c)).
  assert (E2 : Qabs (x2 - x1 * c) <= pow2 (-51)).
  { apply round64_err_small. apply Qabs_Qlt_condition. unfold c. lra. }
  rewrite ulp51_value in E2. apply Qabs_Qle_condition in E2.
  set (s' := round64 (s + x2)).
  assert (E3 : Qabs (s' - (s + x2)) <= pow2 (-51)).
  { apply round64_err_small. apply Qabs_Qlt_condition. unfold c in E2. lra. }
  rewrite ulp51_value in E3. apply Qabs_Qle_condition in E3.
  unfold c in *.
  apply Qabs_Qle_condition.
  destruct (Qlt_le_dec (t - s) 0) as [Neg | Pos].
  - rewrite (Qabs_neg (t - s)) by lra. lra.
  - rewrite (Qabs_pos (t - s)) by lra. lra.
Qed.

(** One step between doubles never overshoots the target and never moves
    away from it. *)
Lemma ease_between s t :
  is_double s -> is_double t ->
  (s <= t -> s <= ease s t /\ ease s t <= t) /\
  (t <= s -> t <= ease s t /\ ease s t <= s).
Proof.
  intros Hs Ht. unfold ease, add, mul, sub. rewrite easing_value.
  set (c := 5764607523034235 # 72057594037927936).
  split; intros Hle.
  - pose proof (round64_nonneg (t - s)) as A1.
    pose proof (round64_le_twice (t - s)) as A2.
    set (x1 := round64 (t - s)) in *.
    assert (P : 0 <= x1 * c) by (unfold c; lra).
    pose proof (round64_nonneg (x1 * c) P) as B1.
    pose proof (round64_le_twice (x1 * c) P) as B2.
    set (x2 := round64 (x1 * c)) in *. unfold c in *.
    split.
    + apply round64_ge_double; [exact Hs | lra].
    + apply round64_le_double; [exact Ht | lra].
  - pose proof (round64_nonpos (t - s)) as A1.
    pose proof (round64_ge_twice (t - s)) as A2.
    set (x1 := round64 (t - s)) in *.
    assert (P : x1 * c <= 0) by (unfold c; lra).
    pose proof (round64_nonpos (x1 * c) P) as B1.
    pose proof (round64_ge_twice (x1 * c) P) as B2.
    set (x2 := round64 (x1 * c)) in *. unfold c in *.
    split.
    + apply round64_ge_double; [exact Ht | lra].
    + apply round64_le_double; [exact Hs | lra].
Qed.

Lemma ease_not_farther s t :
  is_double s -> is_double t -> Qabs (t - ease s t) <= Qabs (t - s).
Proof.
  intros Hs Ht. destruct (ease_between s t Hs Ht) as [Up Down].
  destruct (Qlt_le_dec t s) as [L | L].
  - destruct Down as [D1 D2]; [lra |].
    rewrite (Qabs_neg (t - s)), (Qabs_neg (t - ease s t)) by lra. lra.
  - destruct Up as [U1 U2]; [exact L |].
    rewrite (Qabs_pos (t - s)), (Qabs_pos (t - ease s t)) by lra. lra.
Qed.

Lemma decay_nonneg n : forall a, 0 <= a -> 0 <= decay n a.
Proof. induction n as [| n IH]; intros a Ha; cbn; [exact Ha | apply IH; lra]. Qed.

Lemma decay_mono n : forall a b, a <= b -> decay n a <= decay n b.
Proof. induction n as [| n IH]; intros a b H; cbn; [exact H | apply IH; lra]. Qed.

Lemma decay_le n : forall a, 0 <= a -> decay n a <= a.
Proof.
  induction n as [| n IH]; intros a Ha; cbn; [lra |].
  apply Qle_trans with ((23 # 25) * a); [apply IH |]; lra.
Qed.

Lemma decay_add m n a : decay (m + n) a = decay n (decay m a).
Proof. revert a. induction m as [| m IH]; intros a; cbn; [reflexivity | apply IH]. Qed.

(** The distance after [n] steps stays under the envelope. *)
Lemma settle_envelope t :
  Qabs t <= 2 ->
  forall n s a,
    0 <= a -> a <= 4 -> Qabs (t - s) <= a + noise ->
    Qabs (t - settle n s t) <= decay n a + noise.
Proof.
  intros Ht. induction n as [| n IH]; intros s a Ha0 Ha4 Hd; [exact Hd |].
  cbn [settle decay]. apply IH; [lra | lra |].
  eapply Qle_trans; [apply ease_err; [exact Ht |] |].
  - unfold noise in Hd. rewrite ulp51_value in Hd. lra.
  - unfold noise in *. rewrite ulp51_value in *. lra.
Qed.

Lemma settled_after_200 s t n :
  Qabs s <= 2 -> Qabs t <= 2 -> (200 <= n)%nat ->
  Qabs (t - settle n s t) <= 9 # 10000.
Proof.
  intros Hs Ht Hn.
  assert (Hd : Qabs (t - s) <= 4 + noise).
  { apply Qabs_Qle_condition in Hs. apply Qabs_Qle_condition in Ht.
    assert (0 <= noise) by (vm_compute; discriminate).
    apply Qabs_Qle_condition. lra. }
  eapply Qle_trans;
    [apply (settle_envelope t Ht n s 4); [lra | lra | exact Hd] |].
  replace n with ((n - 200) + 200)%nat by lia. rewrite decay_add.
  apply Qle_trans with (decay 200 4 + noise); [| vm_compute; discriminate].
  apply Qplus_le_compat; [| apply Qle_refl].
  apply decay_mono, decay_le. lra.
Qed.

(** C4, as the code has it.  Between doubles in [-2,2], with the target held
    fixed: an easing step never moves the smoothed value away from the
    target nor past it; it moves it strictly closer whenever the distance is
    at least
    2^-45, so on every step taken above the 0.001 threshold; and from 200
    steps on the distance is within the threshold, where the frame's own test
    [delta > 0.001] fails.  Below 2^-45 the added term can round away and
    the step may leave the smoothed value where it is. *)
Theorem easing_approaches_and_settles :
  forall s t : number,
    is_double s -> is_double t -> Qabs s <= 2 -> Qabs t <= 2 ->
    Qabs (t - ease s t) <= Qabs (t - s) /\
    (s <= t -> s <= ease s t /\ ease s t <= t) /\
    (t <= s -> t <= ease s t /\ ease s t <= s) /\
    (pow2 (-45) <= Qabs (t - s) -> Qabs (t - ease s t) < Qabs (t - s)) /\
    (forall n, (200 <= n)%nat ->
       Qabs (t - settle n s t) <= threshold /\
       gtb (delta (settle n s t) t) threshold = false).
Proof.
  intros s t Ds Dt Hs Ht.
  split; [apply ease_not_farther; assumption |].
  split; [apply (ease_between s t Ds Dt) |].
  split; [apply (ease_between s t Ds Dt) |]. split.
  - intros Hbig.
    assert (Hd : Qabs (t - s) <= 5).
    { apply Qabs_Qle_condition in Hs. apply Qabs_Qle_condition in Ht.
      apply Qabs_Qle_condition. lra. }
    pose proof (ease_err s t Ht Hd) as H.
    rewrite ulp51_value in H.
    change (pow2 (-45)) with (1 # 35184372088832) in Hbig. lra.
  - intros n Hn. pose proof (settled_after_200 s t n Hs Ht Hn) as H.
    assert (T : (9 # 10000) + pow2 (-51) <= threshold)
      by (vm_compute; discriminate).
    rewrite ulp51_value in T.
    split; [lra |].
    unfold gtb, ltb, delta, abs, sub.
    assert (L : Qred (Qabs (round64 (t - settle n s t))) <= threshold).
    { rewrite Qred_correct.
      assert (E : Qabs (round64 (t - settle n s t) - (t - settle n s t))
                  <= pow2 (-51)).
      { apply round64_err_small. lra. }
      rewrite ulp51_value in E.
      apply Qabs_Qle_condition in E. apply Qabs_Qle_condition in H.
      apply Qabs_Qle_condition. lra. }
    apply Qle_bool_iff in L. rewrite L. reflexivity.
Qed.

Lemma easing_approaches_and_settles_witness :
  Qabs (1 - ease 0 1) <= Qabs (1 - 0) /\
  (0 <= 1 -> 0 <= ease 0 1 /\ ease 0 1 <= 1) /\
  (1 <= 0 -> 1 <= ease 0 1 /\ ease 0 1 <= 0) /\
  (pow2 (-45) <= Qabs (1 - 0) -> Qabs (1 - ease 0 1) < Qabs (1 - 0)) /\
  (forall n, (200 <= n)%nat ->
     Qabs (1 - settle n 0 1) <= threshold /\
     gtb (delta (settle n 0 1) 1) threshold = false).
Proof.
  apply (easing_approaches_and_settles 0 1).
  - vm_compute. reflexivity.
  - vm_compute. reflexivity.
  - vm_compute. discriminate.
  - vm_compute. discriminate.
Defined.

(** C4 as stated fails: from smoothed = 1 toward target = 1 + 2^-52 (the
    next double) the added term rounds away, the smoothed value stays at 1
    and the distance, which is not zero, does not decrease. *)
Lemma easing_step_can_stall :
  let s : number := 1 in
  let t : number := 1 + pow2 (-52) in
  (is_double s /\ is_double t /\ Qabs s <= 2 /\ Qabs t <= 2) /\
  ~ Qabs (t - s) == 0 /\
  ease s t = s /\
  ~ Qabs (t - ease s t) < Qabs (t - s).
Proof.
  cbv zeta. repeat split; vm_compute; congruence.
Qed.

End EasingFacts.

(** ** The parallax driver as a state machine *)

Section DriverFacts.

Import JS Parallax.

Lemma filter_out_only (h : nat) : filter (fun h' => h' <> h) [h] = [].
Proof. rewrite filter_cons_False by (intros N; apply N; reflexivity). reflexivity. Qed.

Lemma requestIfIdle_consistent st :
  listening st = true -> consistent st -> consistent (requestIfIdle st).
Proof.
  unfold consistent, requestIfIdle. intros L C. rewrite L in C.
  destruct (rafRef st) as [h |] eqn:R.
  - rewrite L, R. exact C.
  - cbn. rewrite L, C. reflexivity.
Qed.

Lemma updateParallax_consistent st :
  listening st = true -> frames st = [] -> consistent (updateParallax st).
Proof.
  unfold consistent, updateParallax. intros L F.
  destruct (_ || _); cbn; rewrite L, ?F; reflexivity.
Qed.

Lemma step_consistent st e : consistent st -> consistent (step st e).
Proof.
  intros C. destruct e as [cx cy rect | | h |]; cbn [step].
  - destruct (listening st) eqn:L; [| exact C].
    apply requestIfIdle_consistent; [exact L |].
    unfold consistent in *. cbn. rewrite L in *. exact C.
  - destruct (listening st) eqn:L; [| exact C].
    apply requestIfIdle_consistent; [exact L |].
    unfold consistent in *. cbn. rewrite L in *. exact C.
  - case_bool_decide as Hin; [| exact C].
    unfold consistent in C.
    destruct (listening st) eqn:L.
    + apply updateParallax_consistent; [reflexivity |]. cbn.
      destruct (rafRef st) as [h0 |]; rewrite C in Hin |- *.
      * apply list_elem_of_singleton in Hin. subst h0. apply filter_out_only.
      * reflexivity.
    + rewrite C in Hin. inversion Hin.
  - destruct (listening st) eqn:L; [| exact C].
    unfold consistent in *. rewrite L in C. cbn.
    destruct (rafRef st) as [h |]; rewrite C; [apply filter_out_only | reflexivity].
Qed.

Lemma run_consistent es : consistent (run es).
Proof.
  unfold run. induction es as [| e es IH] using rev_ind.
  - reflexivity.
  - rewrite fold_left_app. cbn. apply step_consistent, IH.
Qed.

(** C7. After any sequence of pointer events, frame callbacks and the
    cleanup: at most one animation frame is pending, and it is the one
    [rafRef] records; a pointer handler requests a frame exactly when
    [rafRef] is null; a frame callback the browser runs re-schedules itself
    when the distance to the target exceeds 0.001 on either axis, and
    otherwise leaves [rafRef] null and nothing pending. *)
Theorem parallax_driver_single_frame :
  forall es : list event,
    let st := run es in
    (length (frames st) <= 1)%nat /\
    consistent st /\
    (forall cx cy rect,
       let st' := handlePointerMove cx cy rect st in
       match rafRef st with
       | None => rafRef st' = Some (nextFrame st) /\
                 frames st' = frames st ++ [nextFrame st]
       | Some h => rafRef st' = Some h /\ frames st' = frames st
       end) /\
    (let st' := handlePointerLeave st in
     match rafRef st with
     | None => rafRef st' = Some (nextFrame st) /\
               frames st' = frames st ++ [nextFrame st]
     | Some h => rafRef st' = Some h /\ frames st' = frames st
     end) /\
    (forall h,
       let st' := step st (Frame h) in
       if bool_decide (h ∈ frames st) then
         if gtb (delta (x (smoothRef st')) (x (targetRef st'))) threshold
            || gtb (delta (y (smoothRef st')) (y (targetRef st'))) threshold
         then rafRef st' = Some (nextFrame st) /\ frames st' = [nextFrame st]
         else rafRef st' = None /\ frames st' = []
       else st' = st).
Proof.
  intros es st. pose proof (run_consistent es) as C. fold st in C.
  clearbody st.
  split; [| split; [exact C |]; split; [| split]].
  - unfold consistent in C.
    destruct (listening st); [destruct (rafRef st) |]; rewrite C; cbn; lia.
  - intros cx cy rect. unfold handlePointerMove, requestIfIdle. cbn.
    destruct (rafRef st) eqn:R; cbn; rewrite ?R; split; reflexivity.
  - unfold handlePointerLeave, requestIfIdle. cbn.
    destruct (rafRef st) eqn:R; cbn; rewrite ?R; split; reflexivity.
  - intros h. cbn [step]. case_bool_decide as Hin; [| reflexivity].
    assert (F : filter (fun h' => h' <> h) (frames st) = []).
    { unfold consistent in C.
      destruct (listening st); [destruct (rafRef st) as [h0 |] |];
        rewrite C in Hin |- *; try (inversion Hin; fail).
      apply list_elem_of_singleton in Hin. subst h0. apply filter_out_only. }
    unfold updateParallax.
    cbn [targetRef smoothRef rafRef frames nextFrame listening x y].
    rewrite F.
    destruct (gtb (delta (ease (x (smoothRef st)) (x (targetRef st)))
                         (x (targetRef st))) threshold
              || gtb (delta (ease (y (smoothRef st)) (y (targetRef st)))
                            (y (targetRef st))) threshold) eqn:B;
      cbn [targetRef smoothRef rafRef frames nextFrame x y requestFrame];
      rewrite B; split; reflexivity.
Qed.

End DriverFacts.

(** ** The shooting-star scheduler as a state machine *)

Section SchedulerFacts.

Import JS Shooting.

Lemma clearAll_lookup hs (ts : gmap nat timer) h :
  clearAll hs ts !! h = if decide (h ∈ hs) then None else ts !! h.
Proof.
  unfold clearAll. destruct (decide (h ∈ hs)) as [Hin | Hout].
  - apply map_lookup_filter_None. right. intros t _ Hn. apply Hn. exact Hin.
  - destruct (ts !! h) as [t |] eqn:E.
    + apply map_lookup_filter_Some. split; [exact E | exact Hout].
    + apply map_lookup_filter_None. left. exact E.
Qed.

Lemma wf_initial : wf initial.
Proof.
  split; cbn; intros; try rewrite lookup_empty in *; try discriminate;
    try reflexivity.
  - constructor.
  - match goal with H : _ ∈ [] |- _ => inversion H end.
Qed.

Lemma wf_mount st : wf st -> live st = false -> wf (mount st).
Proof.
  intros W L. pose proof (wf_dead st W L) as E.
  split; cbn; rewrite ?E.
  - intros h t H _. apply lookup_insert_Some in H.
    destruct H as [[<- _] | [_ H]]; [reflexivity |].
    rewrite lookup_empty in H. discriminate.
  - intros h t k H R. apply lookup_insert_Some in H.
    destruct H as [[_ <-] | [_ H]]; [discriminate |].
    rewrite lookup_empty in H. discriminate.
  - intros h h' t t' k H _ R. apply lookup_insert_Some in H.
    destruct H as [[_ <-] | [_ H]]; [discriminate |].
    rewrite lookup_empty in H. discriminate.
  - apply (wf_ids st W).
  - apply (wf_bound st W).
  - discriminate.
Qed.

Lemma cleanup_timers st : wf st -> timers (cleanup st) = ∅.
Proof.
  intros W. apply map_empty. intros h. cbn. rewrite clearAll_lookup.
  destruct (decide (h ∈ removalTimeoutsRef st)) as [Hin | Hout];
    [reflexivity |].
  destruct (timeoutId st) as [h0 |] eqn:T.
  - destruct (decide (h = h0)) as [-> | N]; [apply lookup_delete_eq |].
    rewrite lookup_delete_ne by (intros E; apply N; symmetry; exact E).
    destruct (timers st !! h) as [t |] eqn:E; [exfalso | reflexivity].
    destruct (run t) as [| k] eqn:R.
    + pose proof (wf_spawn st W h t E R). congruence.
    + apply Hout. apply (wf_removal st W h t k E R).
  - destruct (timers st !! h) as [t |] eqn:E; [exfalso | reflexivity].
    destruct (run t) as [| k] eqn:R.
    + pose proof (wf_spawn st W h t E R). congruence.
    + apply Hout. apply (wf_removal st W h t k E R).
Qed.

Lemma wf_cleanup st : wf st -> wf (cleanup st).
Proof.
  intros W. pose proof (cleanup_timers st W) as E.
  split; rewrite ?E; try (intros; rewrite lookup_empty in *; discriminate).
  - apply (wf_ids st W).
  - apply (wf_bound st W).
  - reflexivity.
Qed.

Lemma wf_spawnShootingStar rev d h t st :
  wf st -> timers st !! h = Some t -> run t = Spawn ->
  wf (spawnShootingStar rev d
        {| shootingStars := shootingStars st;
           starIdRef := starIdRef st;
           removalTimeoutsRef := removalTimeoutsRef st;
           timeoutId := timeoutId st;
           timers := delete h (timers st);
           nextTimer := nextTimer st;
           live := live st |}).
Proof.
  intros W Hh Rh.
  assert (Eid : id (newStar rev d (starIdRef st)) = starIdRef st)
    by (destruct rev; reflexivity).
  assert (Old : forall h' t', h' <> nextTimer st -> h' <> S (nextTimer st) ->
            <[S (nextTimer st) := {| ms := nextDelay d; run := Spawn |}]>
              (<[nextTimer st :=
                   {| ms := removalDelay (newStar rev d (starIdRef st));
                      run := Remove (id (newStar rev d (starIdRef st))) |}]>
                 (delete h (timers st))) !! h' = Some t' ->
            h' <> h /\ timers st !! h' = Some t').
  { intros h' t' N1 N2 H.
    rewrite lookup_insert_ne in H by (intros E; apply N2; symmetry; exact E).
    rewrite lookup_insert_ne in H by (intros E; apply N1; symmetry; exact E).
    apply lookup_delete_Some in H. destruct H as [N H].
    split; [intros E; apply N; symmetry; exact E | exact H]. }
  split; unfold spawnShootingStar;
    cbn [shootingStars starIdRef removalTimeoutsRef timeoutId timers
         nextTimer live].
  - intros h' t' H R.
    destruct (decide (h' = S (nextTimer st))) as [-> | N2]; [reflexivity |].
    exfalso.
    destruct (decide (h' = nextTimer st)) as [-> | N1].
    + rewrite lookup_insert_ne in H by lia.
      rewrite lookup_insert_eq in H. injection H as <-. discriminate.
    + destruct (Old h' t' N1 N2 H) as [N H'].
      pose proof (wf_spawn st W h' t' H' R).
      pose proof (wf_spawn st W h t Hh Rh). congruence.
  - intros h' t' k H R. rewrite fmap_app. cbn [fmap list_fmap].
    destruct (decide (h' = S (nextTimer st))) as [-> | N2].
    { rewrite lookup_insert_eq in H. injection H as <-. discriminate. }
    destruct (decide (h' = nextTimer st)) as [-> | N1].
    + rewrite lookup_insert_ne in H by lia.
      rewrite lookup_insert_eq in H. injection H as <-. cbn in R.
      injection R as <-. split; [apply elem_of_union_l, elem_of_singleton; reflexivity |].
      apply elem_of_app. right. apply list_elem_of_singleton. reflexivity.
    + destruct (Old h' t' N1 N2 H) as [N H'].
      destruct (wf_removal st W h' t' k H' R) as [A B].
      split; [apply elem_of_union_r, A |]. apply elem_of_app. left. exact B.
  - intros h1 h2 t1 t2 k H1 H2 R1 R2.
    destruct (decide (h1 = S (nextTimer st))) as [-> | N12].
    { rewrite lookup_insert_eq in H1. injection H1 as <-. discriminate. }
    destruct (decide (h2 = S (nextTimer st))) as [-> | N22].
    { rewrite lookup_insert_eq in H2. injection H2 as <-. discriminate. }
    destruct (decide (h1 = nextTimer st)) as [-> | N11];
      destruct (decide (h2 = nextTimer st)) as [-> | N21];
      try reflexivity.
    + exfalso. rewrite lookup_insert_ne, lookup_insert_eq in H1 by lia.
      injection H1 as <-. cbn in R1. injection R1 as <-.
      destruct (Old h2 t2 N21 N22 H2) as [N H'].
      destruct (wf_removal st W h2 t2 _ H' R2) as [_ B].
      apply (wf_bound st W) in B. rewrite Eid in B. lia.
    + exfalso. rewrite lookup_insert_ne, lookup_insert_eq in H2 by lia.
      injection H2 as <-. cbn in R2. injection R2 as <-.
      destruct (Old h1 t1 N11 N12 H1) as [N H'].
      destruct (wf_removal st W h1 t1 _ H' R1) as [_ B].
      apply (wf_bound st W) in B. rewrite Eid in B. lia.
    + destruct (Old h1 t1 N11 N12 H1) as [_ H1'].
      destruct (Old h2 t2 N21 N22 H2) as [_ H2'].
      exact (wf_inj st W h1 h2 t1 t2 k H1' H2' R1 R2).
  - rewrite fmap_app. cbn [fmap list_fmap]. rewrite Eid.
    apply NoDup_app. split; [apply (wf_ids st W) |]. split.
    + intros k Hk Hk'. apply list_elem_of_singleton in Hk'. subst k.
      apply (wf_bound st W) in Hk. lia.
    + apply NoDup_singleton.
  - intros k. rewrite fmap_app. cbn [fmap list_fmap]. rewrite Eid.
    intros Hk. apply elem_of_app in Hk. destruct Hk as [Hk | Hk].
    + apply (wf_bound st W) in Hk. lia.
    + apply list_elem_of_singleton in Hk. lia.
  - intros L. pose proof (wf_dead st W L) as E. rewrite E in Hh.
    rewrite lookup_empty in Hh. discriminate.
Qed.

Lemma wf_removeShootingStar k h t st :
  wf st -> timers st !! h = Some t -> run t = Remove k ->
  wf (removeShootingStar k h
        {| shootingStars := shootingStars st;
           starIdRef := starIdRef st;
           removalTimeoutsRef := removalTimeoutsRef st;
           timeoutId := timeoutId st;
           timers := delete h (timers st);
           nextTimer := nextTimer st;
           live := live st |}).
Proof.
  intros W Hh Rh.
  split; unfold removeShootingStar;
    cbn [shootingStars starIdRef removalTimeoutsRef timeoutId timers
         nextTimer live].
  - intros h' t' H R. apply lookup_delete_Some in H. destruct H as [_ H].
    exact (wf_spawn st W h' t' H R).
  - intros h' t' k' H R. apply lookup_delete_Some in H. destruct H as [N H].
    destruct (wf_removal st W h' t' k' H R) as [A B]. split.
    + apply elem_of_difference. split; [exact A |].
      intros E. apply elem_of_singleton in E. apply N. symmetry. exact E.
    + apply list_elem_of_fmap in B. destruct B as (s & -> & Hs).
      apply list_elem_of_fmap. exists s. split; [reflexivity |].
      apply list_elem_of_filter. split; [| exact Hs].
      intros E. apply N. rewrite E in R.
      exact (wf_inj st W h h' t t' k Hh H Rh R).
  - intros h1 h2 t1 t2 k' H1 H2 R1 R2.
    apply lookup_delete_Some in H1. apply lookup_delete_Some in H2.
    exact (wf_inj st W h1 h2 t1 t2 k' (proj2 H1) (proj2 H2) R1 R2).
  - apply (NoDup_fmap_2_strong id).
    + intros s1 s2 H1 H2 E.
      apply list_elem_of_filter in H1. apply list_elem_of_filter in H2.
      destruct H1 as [_ H1], H2 as [_ H2].
      pose proof (wf_ids st W) as ND.
      apply list_elem_of_lookup in H1. destruct H1 as [i1 H1].
      apply list_elem_of_lookup in H2. destruct H2 as [i2 H2].
      assert (i1 = i2).
      { apply (NoDup_lookup _ i1 i2 (id s1) ND).
        - rewrite list_lookup_fmap, H1. reflexivity.
        - rewrite list_lookup_fmap, H2, E. reflexivity. }
      subst i2. congruence.
    + apply NoDup_filter.
      apply (NoDup_fmap_1 id). apply (wf_ids st W).
  - intros k' Hk. apply (wf_bound st W).
    apply list_elem_of_fmap in Hk. destruct Hk as (s & -> & Hs).
    apply list_elem_of_filter in Hs.
    apply list_elem_of_fmap. exists s. split; [reflexivity | apply Hs].
  - intros L. pose proof (wf_dead st W L) as E. rewrite E in Hh.
    rewrite lookup_empty in Hh. discriminate.
Qed.

Lemma wf_step rev st e : wf st -> wf (step rev st e).
Proof.
  intros W. destruct e as [| | h d]; cbn [step].
  - destruct (live st) eqn:L; [exact W | apply wf_mount; assumption].
  - destruct (live st); [apply wf_cleanup, W | exact W].
  - unfold fire. destruct (timers st !! h) as [t |] eqn:E; [| exact W].
    destruct (run t) as [| k] eqn:R.
    + apply (wf_spawnShootingStar rev d h t st W E R).
    + apply (wf_removeShootingStar k h t st W E R).
Qed.

Lemma wf_exec rev es : forall st, wf st -> wf (exec rev es st).
Proof.
  unfold exec. induction es as [| e es IH]; intros st W; [exact W |].
  cbn. apply IH, wf_step, W.
Qed.

(** Nothing happens when no timer is pending. *)
Lemma exec_fires_idle rev fs : forall st,
  timers st = ∅ -> exec rev (fires fs) st = st.
Proof.
  unfold exec, fires. induction fs as [| f fs IH]; intros st E; [reflexivity |].
  cbn. unfold fire. rewrite E, lookup_empty. apply IH, E.
Qed.

(** C5. In every state the scheduler can reach, through any sequence of
    mounts, unmounts and timer firings in any order, the cleanup leaves no
    timer pending and an empty tracking set; whatever the browser tries to
    fire afterwards finds nothing to run, so the scheduler's state, and the
    list of shooting stars in it, never changes again. *)
Theorem unmount_cancels_every_timer :
  forall (rev : revision) (es : list event) (fs : list (nat * draws)),
    let st := exec rev es initial in
    let st' := cleanup st in
    timers st' = ∅ /\
    removalTimeoutsRef st' = ∅ /\
    shootingStars st' = shootingStars st /\
    step rev st Unmount = (if live st then st' else st) /\
    timers (step rev st Unmount) = ∅ /\
    exec rev (fires fs) (step rev st Unmount) = step rev st Unmount.
Proof.
  intros rev es fs st st'.
  assert (W : wf st) by (apply wf_exec, wf_initial).
  assert (E : timers st' = ∅) by (apply cleanup_timers, W).
  assert (U : timers (step rev st Unmount) = ∅).
  { cbn [step]. destruct (live st) eqn:L; [exact E |].
    apply (wf_dead st W L). }
  repeat split; try assumption.
  apply exec_fires_idle, U.
Qed.

(** Filtering out an identifier that occurs once removes one entry and
    keeps the others where they are. *)
Lemma filter_out_unique_id (l : list ShootingStar) (k : Z) :
  NoDup (id <$> l) -> k ∈ (id <$> l) ->
  exists l1 s l2,
    l = l1 ++ s :: l2 /\ id s = k /\
    (forall s', s' ∈ l1 ++ l2 -> id s' <> k) /\
    filter (fun s => id s <> k) l = l1 ++ l2.
Proof.
  induction l as [| a l IH]; intros ND Hin; [inversion Hin |].
  cbn [fmap list_fmap] in ND, Hin. apply NoDup_cons in ND.
  destruct ND as [Na ND].
  destruct (decide (id a = k)) as [E | N].
  - exists [], a, l. split; [reflexivity |]. split; [exact E |].
    assert (Hl : forall s', s' ∈ l -> id s' <> k).
    { intros s' Hs' Es. apply Na. rewrite E, <- Es.
      apply list_elem_of_fmap. exists s'. split; [reflexivity | exact Hs']. }
    split; [exact Hl |].
    rewrite filter_cons_False by (intros F; apply F, E). cbn.
    clear -Hl. induction l as [| b l IHl]; [reflexivity |].
    rewrite filter_cons_True by (apply Hl; left).
    f_equal. apply IHl. intros s' Hs'. apply Hl. right. exact Hs'.
  - apply elem_of_cons in Hin. destruct Hin as [E | Hin];
      [exfalso; apply N; symmetry; exact E |].
    destruct (IH ND Hin) as (l1 & s & l2 & El & Es & Hn & Ef).
    exists (a :: l1), s, l2. split; [rewrite El; reflexivity |].
    split; [exact Es |]. split.
    + intros s' Hs'. cbn in Hs'. apply elem_of_cons in Hs'.
      destruct Hs' as [-> | Hs']; [exact N | apply Hn, Hs'].
    + rewrite filter_cons_True by exact N. rewrite Ef. reflexivity.
Qed.

(** C6. In every reachable state, when the pending removal timer of the star
    with identifier [k] fires (in whatever order relative to the other
    timers), the list held exactly one entry with identifier [k]; that
    entry is removed and every other entry stays, in the same order. *)
Theorem removal_timer_removes_exactly_its_star :
  forall (rev : revision) (es : list event) (h : nat) (d : draws)
         (t : timer) (k : Z),
    let st := exec rev es initial in
    timers st !! h = Some t -> run t = Remove k ->
    exists l1 s l2,
      shootingStars st = l1 ++ s :: l2 /\ id s = k /\
      (forall s', s' ∈ l1 ++ l2 -> id s' <> k) /\
      shootingStars (step rev st (Fire h d)) = l1 ++ l2.
Proof.
  intros rev es h d t k st Ht Rt.
  assert (W : wf st) by (apply wf_exec, wf_initial).
  destruct (wf_removal st W h t k Ht Rt) as [_ Hin].
  destruct (filter_out_unique_id _ k (wf_ids st W) Hin)
    as (l1 & s & l2 & El & Es & Hn & Ef).
  exists l1, s, l2. repeat split; try assumption.
  cbn [step]. unfold fire. rewrite Ht, Rt. cbn. exact Ef.
Qed.

Lemma removal_timer_witness :
  let d := {| forDuration := 1 # 2; forTop := 1 # 4; forLeft := 3 # 4;
              forDelay := 1 # 2; forNext := 1 # 8 |} in
  let st := exec Reference [Mount; Fire 1 d; Fire 3 d] initial in
  exists l1 s l2,
    shootingStars st = l1 ++ s :: l2 /\ id s = 1%Z /\
    (forall s', s' ∈ l1 ++ l2 -> id s' <> 1%Z) /\
    shootingStars (step Reference st (Fire 4 d)) = l1 ++ l2.
Proof.
  intros d st.
  apply (removal_timer_removes_exactly_its_star
           Reference [Mount; Fire 1 d; Fire 3 d] 4 d
           {| ms := removalDelay (newStar Reference d 1);
              run := Remove 1 |} 1).
  - vm_compute. reflexivity.
  - reflexivity.
Defined.

(** *** What a spawn schedules *)

Local Open Scope Q_scope.

Lemma unit_double_range r :
  unit_double r -> 0 <= r /\ r <= 1 - pow2 (-53).
Proof.
  intros (D & L & U). split; [exact L | apply double_below_one; assumption].
Qed.

Lemma spawn_ranges rev d k :
  valid_draws d ->
  (0 <= top (newStar rev d k) /\ top (newStar rev d k) < 40) /\
  (40 <= left (newStar rev d k) /\ left (newStar rev d k) <= 60) /\
  (4000 <= nextDelay d /\ nextDelay d <= 9000).
Proof.
  intros (_ & Ht & Hl & _ & Hn).
  apply unit_double_range in Ht, Hl, Hn.
  assert (T : 0 <= mul (forTop d) (int 40) /\ mul (forTop d) (int 40) < 40).
  { apply (scaled_range (1 - pow2 (-53))); [exact Ht | closed_cmp | closed_cmp]. }
  assert (L : 40 <= add (int 40) (mul (forLeft d) (int 20)) /\
              add (int 40) (mul (forLeft d) (int 20)) <= 60).
  { apply (affine_range_le (1 - pow2 (-53)));
      [exact Hl | closed_cmp | closed_cmp | closed_cmp]. }
  split; [destruct rev; exact T |]. split; [destruct rev; exact L |].
  unfold nextDelay.
  apply (affine_range_le (1 - pow2 (-53)));
    [exact Hn | closed_cmp | closed_cmp | closed_cmp].
Qed.

(** The largest double below 1 - 2^-52 is 1 - 3 * 2^-53. *)
Lemma double_below_last_two r :
  is_double r -> r < 1 - pow2 (-52) -> r <= 1 - 3 * pow2 (-53).
Proof.
  intros Hd H1. change (pow2 (-53)) with (1 # 9007199254740992).
  change (pow2 (-52)) with (1 # 4503599627370496) in H1.
  destruct (Qlt_le_dec r (1 # 2)) as [Lo | L]; [lra |].
  assert (Hr : 0 < r) by lra.
  assert (H1' : r < 1) by lra.
  assert (Ee : ilog2 r = (-1)%Z).
  { apply ilog2_unique; [exact L | exact H1']. }
  assert (Ek : ulp_exp r = (-53)%Z).
  { rewrite (ulp_exp_pos r Hr), Ee. reflexivity. }
  unfold is_double in Hd. rewrite round64_scaled in Hd by lra.
  rewrite Ek in Hd. set (m := rne (r / pow2 (-53))) in *.
  change (pow2 (-53)) with (1 # 9007199254740992) in Hd.
  assert (Hm : inject_Z m < inject_Z 9007199254740990).
  { change (inject_Z 9007199254740990) with 9007199254740990. lra. }
  rewrite <- Zlt_Qlt in Hm.
  assert (Hm' : inject_Z m <= inject_Z 9007199254740989)
    by (rewrite <- Zle_Qle; lia).
  change (inject_Z 9007199254740989) with 9007199254740989 in Hm'. lra.
Qed.

(** [a + r * b] stays below its upper end exactly for the draws below
    1 - 2^-52, when the sum at 1 - 2^-52 rounds up to that end. *)
Lemma affine_upper_end a b hi r :
  unit_double r -> 0 <= b ->
  add a (mul (1 - 3 * pow2 (-53)) b) < hi ->
  hi <= add a (mul (1 - pow2 (-52)) b) ->
  ((add a (mul r b) < hi) <-> (r < 1 - pow2 (-52))).
Proof.
  intros (D & L & U) Hb Lo Hi. split.
  - intros H.
    destruct (Qlt_le_dec r (1 - pow2 (-52))) as [Lt | Ge];
      [exact Lt | exfalso].
    assert (P : 0 <= 1 - pow2 (-52)) by (vm_compute; discriminate).
    assert (M : add a (mul (1 - pow2 (-52)) b) <= add a (mul r b)).
    { apply add_mono; [apply Qle_refl |].
      apply mul_mono; [exact P | exact Ge | exact Hb | apply Qle_refl]. }
    lra.
  - intros H. pose proof (double_below_last_two r D H) as M.
    assert (N : add a (mul r b) <= add a (mul (1 - 3 * pow2 (-53)) b)).
    { apply add_mono; [apply Qle_refl |].
      apply mul_mono; [exact L | exact M | exact Hb | apply Qle_refl]. }
    lra.
Qed.

Lemma spawn_upper_ends rev d k :
  valid_draws d ->
  ((left (newStar rev d k) < 60) <-> (forLeft d < 1 - pow2 (-52))) /\
  ((nextDelay d < 9000) <-> (forNext d < 1 - pow2 (-52))).
Proof.
  intros (_ & _ & Hl & _ & Hn).
  pose proof (affine_upper_end (int 40) (int 20) 60 (forLeft d) Hl
                ltac:(closed_cmp) ltac:(closed_cmp) ltac:(closed_cmp)) as UL.
  pose proof (affine_upper_end (int 4000) (int 5000) 9000 (forNext d) Hn
                ltac:(closed_cmp) ltac:(closed_cmp) ltac:(closed_cmp)) as UN.
  split; [destruct rev; exact UL | exact UN].
Qed.

(** C8, as the code has it.  Mounting schedules the first spawn 2500 ms
    later and nothing else, and shows no star.  Every spawn, for whatever
    [Math.random] returns, appends a star with top in [0,40) and left in
    [40,60], schedules its removal after [(duration + delay) * 1000] ms and
    the next spawn after a delay in [4000,9000].  The two upper bounds 60
    and 9000 are reached exactly when [Math.random] returns a value within
    2^-52 of 1, that is, at least 1 - 2^-52: the sums are rounded, and for
    every smaller draw the left position is below 60 and the next delay
    below 9000. *)
Theorem spawn_schedule :
  forall (rev : revision) (es : list event),
    let st := exec rev es initial in
    (live st = false ->
     let st' := step rev st Mount in
     timers st' = {[ nextTimer st := {| ms := 2500; run := Spawn |} ]} /\
     shootingStars st' = shootingStars st) /\
    (forall h t d,
       timers st !! h = Some t -> run t = Spawn -> valid_draws d ->
       let st' := step rev st (Fire h d) in
       let star := newStar rev d (starIdRef st) in
       shootingStars st' = shootingStars st ++ [star] /\
       (0 <= top star /\ top star < 40) /\
       (40 <= left star /\ left star <= 60) /\
       ((left star < 60) <-> (forLeft d < 1 - pow2 (-52))) /\
       timers st' !! nextTimer st
       = Some {| ms := mul (add (duration star) (delay star)) (int 1000);
                 run := Remove (id star) |} /\
       exists next,
         timers st' !! S (nextTimer st) = Some {| ms := next; run := Spawn |} /\
         timeoutId st' = Some (S (nextTimer st)) /\
         4000 <= next /\ next <= 9000 /\
         ((next < 9000) <-> (forNext d < 1 - pow2 (-52)))).
Proof.
  intros rev es st.
  assert (W : wf st) by (apply wf_exec, wf_initial).
  clearbody st. split.
  - intros L. cbn [step]. rewrite L. unfold mount. cbn.
    rewrite (wf_dead st W L). split; reflexivity.
  - intros h t d Ht Rt Vd. cbn [step]. unfold fire. rewrite Ht, Rt.
    unfold spawnShootingStar. cbn.
    destruct (spawn_ranges rev d (starIdRef st) Vd) as (T & L & N).
    destruct (spawn_upper_ends rev d (starIdRef st) Vd) as (UL & UN).
    split; [reflexivity |]. split; [exact T |]. split; [exact L |].
    split; [exact UL |]. split.
    + rewrite lookup_insert_ne by lia. rewrite lookup_insert_eq. reflexivity.
    + exists (nextDelay d). rewrite lookup_insert_eq.
      split; [reflexivity |]. split; [reflexivity |].
      split; [exact (proj1 N) |]. split; [exact (proj2 N) | exact UN].
Qed.

Lemma spawn_schedule_witness :
  let d := {| forDuration := 1 # 2; forTop := 1 # 4; forLeft := 3 # 4;
              forDelay := 1 # 2; forNext := 1 # 8 |} in
  let st := exec Reference [Mount] initial in
  let st' := step Reference st (Fire 1 d) in
  let star := newStar Reference d (starIdRef st) in
  shootingStars st' = shootingStars st ++ [star] /\
  (0 <= top star /\ top star < 40) /\
  (40 <= left star /\ left star <= 60) /\
  ((left star < 60) <-> (forLeft d < 1 - pow2 (-52))) /\
  timers st' !! nextTimer st
  = Some {| ms := mul (add (duration star) (delay star)) (int 1000);
            run := Remove (id star) |} /\
  exists next,
    timers st' !! S (nextTimer st) = Some {| ms := next; run := Spawn |} /\
    timeoutId st' = Some (S (nextTimer st)) /\
    4000 <= next /\ next <= 9000 /\
    ((next < 9000) <-> (forNext d < 1 - pow2 (-52))).
Proof.
  intros d st.
  apply (proj2 (spawn_schedule Reference [Mount]) 1%nat
               {| ms := 2500; run := Spawn |} d).
  - vm_compute. reflexivity.
  - reflexivity.
  - repeat split; vm_compute; congruence.
Defined.

(** C8 as stated fails at its two half-open upper bounds: with
    [Math.random] returning 1 - 2^-52 (the largest value of a generator that
    fills 52 bits, and a value of one that fills 53) for the left position
    and for the next delay, [40 + r * 20] and [4000 + r * 5000] are ties
    that round to 60 and to 9000. *)
Lemma spawn_reaches_upper_bounds :
  let r : number := 1 - pow2 (-52) in
  let d := {| forDuration := 1 # 2; forTop := 1 # 4; forLeft := r;
              forDelay := 1 # 2; forNext := r |} in
  let st := exec Reference [Mount; Fire 1 d] initial in
  valid_draws d /\
  (exists star, shootingStars st = [star] /\
                left star = 60 /\ ~ left star < 60) /\
  (exists t, timers st !! 3%nat = Some t /\ run t = Spawn /\
             ms t = 9000 /\ ~ ms t < 9000).
Proof.
  cbv zeta. split; [| split].
  - repeat split; vm_compute; congruence.
  - eexists. split; [vm_compute; reflexivity |].
    split; [reflexivity | vm_compute; congruence].
  - eexists. split; [vm_compute; reflexivity |].
    split; [reflexivity |]. split; [reflexivity | vm_compute; congruence].
Qed.

End SchedulerFacts.

(** ** Doubles: what rounding returns *)

Section DoubleFacts.

Import JS.
Local Open Scope Q_scope.

Lemma pow2_le_inv a b : pow2 a <= pow2 b -> (a <= b)%Z.
Proof.
  intros H. destruct (Z_le_gt_dec a b) as [L | G]; [exact L |].
  exfalso. assert (pow2 b < pow2 a) by (apply pow2_lt; lia). lra.
Qed.

Lemma is_double_comp x y : x == y -> is_double x -> is_double y.
Proof.
  unfold is_double. intros E H. rewrite <- (round64_comp x y E).
  rewrite H. exact E.
Qed.

Lemma is_double_opp x : is_double x -> is_double (- x).
Proof. unfold is_double. intros H. rewrite round64_opp, H. reflexivity. Qed.

(** An integer of at most 53 bits times a power of two not below 2^-1074
    is a double. *)
Lemma dyadic_pos_is_double m k :
  (-1074 <= k)%Z -> (0 < m <= 2 ^ 53)%Z -> is_double (inject_Z m * pow2 k).
Proof.
  intros Hk [Hm0 Hm].
  pose proof (pow2_pos k) as Pk.
  assert (Im : 0 < inject_Z m) by (rewrite <- (Zlt_Qlt 0); exact Hm0).
  assert (Im' : inject_Z m <= pow2 53).
  { rewrite (pow2_Z 53) by lia. rewrite <- Zle_Qle. exact Hm. }
  set (y := inject_Z m * pow2 k).
  assert (Hy : 0 < y) by (apply Qmult_lt_0_compat; assumption).
  destruct (ilog2_spec y Hy) as [E1 E2].
  assert (He : (ilog2 y <= 53 + k)%Z).
  { apply pow2_le_inv. eapply Qle_trans; [exact E1 |].
    unfold y. rewrite pow2_add. apply Qmult_le_compat_r; [exact Im' | lra]. }
  unfold is_double. rewrite round64_scaled by lra.
  rewrite (ulp_exp_pos y Hy).
  set (k' := Z.max (ilog2 y - 52) (-1074)).
  pose proof (pow2_pos k') as Pk'.
  assert (Z : exists z, y / pow2 k' == inject_Z z).
  { destruct (Z_le_gt_dec k' k) as [L | G].
    - exists (m * 2 ^ (k - k'))%Z.
      rewrite inject_Z_mult, <- pow2_Z by lia.
      unfold y. replace k with ((k - k') + k')%Z at 1 by lia.
      rewrite pow2_add. field. lra.
    - assert (Ee : ilog2 y = (53 + k)%Z) by (unfold k' in G; lia).
      assert (Ek' : k' = (k + 1)%Z) by (unfold k'; lia).
      assert (Mm : m = (2 ^ 53)%Z).
      { assert (H : pow2 53 <= inject_Z m).
        { rewrite Ee, pow2_add in E1. unfold y in E1.
          apply Qmult_le_r in E1; assumption. }
        rewrite (pow2_Z 53) in H by lia. rewrite <- Zle_Qle in H.
        apply Z.le_antisymm; assumption. }
      exists (2 ^ 52)%Z. rewrite Ek'. unfold y. rewrite Mm, pow2_S.
      change (inject_Z (2 ^ 53)) with 9007199254740992.
      change (inject_Z (2 ^ 52)) with 4503599627370496.
      field. lra. }
  destruct Z as [z Ez].
  rewrite (rne_comp _ _ Ez), rne_Z, <- Ez. field. lra.
Qed.

Lemma dyadic_is_double m k :
  (-1074 <= k)%Z -> (Z.abs m <= 2 ^ 53)%Z -> is_double (inject_Z m * pow2 k).
Proof.
  intros Hk Hm. destruct (Z.lt_trichotomy m 0) as [N | [-> | P]].
  - apply (is_double_comp (- (inject_Z (- m) * pow2 k))).
    + rewrite inject_Z_opp. ring.
    + apply is_double_opp, dyadic_pos_is_double; [exact Hk | lia].
  - unfold is_double. rewrite round64_zero; [| ring]. ring.
  - apply dyadic_pos_is_double; [exact Hk | lia].
Qed.

(** Rounding is idempotent: whatever an operation returns is a double. *)
Lemma round64_is_double x : is_double (round64 x).
Proof.
  destruct (Qeq_dec x 0) as [Z | N].
  - rewrite (round64_zero x Z). unfold is_double.
    rewrite round64_zero; reflexivity.
  - apply (is_double_comp
             (inject_Z (rne (x / pow2 (ulp_exp x))) * pow2 (ulp_exp x)));
      [symmetry; apply round64_scaled, N |].
    apply dyadic_is_double; [unfold ulp_exp; lia |].
    pose proof (pow2_pos (ulp_exp x)) as Pk.
    pose proof (Qabs_nonzero x N) as Ax.
    destruct (ilog2_spec _ Ax) as [_ Up].
    assert (Hs : Qabs (x / pow2 (ulp_exp x)) <= inject_Z (2 ^ 53)).
    { unfold Qdiv. rewrite Qabs_Qmult, Qabs_Qinv, (Qabs_pos (pow2 _)) by lra.
      apply Qle_shift_div_r; [exact Pk |].
      rewrite <- pow2_Z by lia. rewrite <- pow2_add.
      apply Qle_trans with (pow2 (ilog2 (Qabs x) + 1)); [lra |].
      apply pow2_le. unfold ulp_exp. lia. }
    apply Qabs_Qle_condition in Hs. destruct Hs as [Lo Hi].
    rewrite <- inject_Z_opp in Lo.
    apply rne_mono in Lo, Hi. rewrite rne_Z in Lo, Hi. lia.
Qed.

End DoubleFacts.

(** ** The generator: exact values *)

Section RngExact.

Import JS Rng.
Local Open Scope Q_scope.

Lemma round64_canonical x : Qred (round64 x) = round64 x.
Proof.
  with_strategy transparent [round64] unfold round64.
  destruct (Qeq_bool x 0); [reflexivity |].
  apply Qred_complete, Qred_correct.
Qed.

Lemma round64_exact x : is_double x -> round64 x = Qred x.
Proof.
  intros H. rewrite <- round64_canonical. apply Qred_complete. exact H.
Qed.

Lemma Qred_int z : Qred (inject_Z z) = inject_Z z.
Proof. apply Qcanon.Qred_identity. cbn. apply Z.gcd_1_r. Qed.

Lemma int_is_double z : (Z.abs z <= 2 ^ 53)%Z -> is_double (int z).
Proof.
  intros H. apply (is_double_comp (inject_Z z * pow2 0)).
  - unfold int. change (pow2 0) with 1. ring.
  - apply dyadic_is_double; [lia | exact H].
Qed.

(** Integer additions below 2^53 are exact. *)
Lemma add_int a b :
  (Z.abs (a + b) <= 2 ^ 53)%Z -> add (int a) (int b) = int (a + b).
Proof.
  intros H. unfold add.
  rewrite (round64_comp _ (int (a + b)))
    by (unfold int; rewrite inject_Z_plus; reflexivity).
  rewrite (round64_exact _ (int_is_double _ H)). apply Qred_int.
Qed.

Lemma trunc_int z : trunc (int z) = z.
Proof. unfold trunc, int. cbn. apply Z.quot_1_r. Qed.

Lemma toUint32_int z : toUint32 (int z) = (z mod two32)%Z.
Proof. unfold toUint32. rewrite trunc_int. reflexivity. Qed.

Lemma toUint32_wrap z : toUint32 (int (z mod two32)) = toUint32 (int z).
Proof. rewrite !toUint32_int. apply Z.mod_mod. discriminate. Qed.

Lemma toInt32_wrap z : toInt32 (int (z mod two32)) = toInt32 (int z).
Proof. unfold toInt32. rewrite toUint32_wrap. reflexivity. Qed.

(** The mixing function reads its argument through [ToInt32] and
    [ToUint32] only. *)
Lemma mix_wrap z : Weyl.mix (int (z mod two32)) = Weyl.mix (int z).
Proof.
  unfold Weyl.mix, bxor, bor, ushr. rewrite toInt32_wrap, toUint32_wrap.
  reflexivity.
Qed.

Lemma next_mix state :
  next state
  = (Weyl.mix (add state (int Weyl.increment)), add state (int Weyl.increment)).
Proof.
  unfold next, Weyl.mix, Weyl.increment. cbv zeta. reflexivity.
Qed.

Lemma advance_exact n : forall s : Z,
  (0 <= s)%Z -> (s + Z.of_nat n * Weyl.increment <= 2 ^ 53)%Z ->
  advance n (int s) = int (s + Z.of_nat n * Weyl.increment).
Proof.
  induction n as [| n IH]; intros s Hs Hb.
  - cbn [advance]. f_equal. lia.
  - cbn [advance]. rewrite next_mix. cbn [snd].
    assert (I : (0 < Weyl.increment)%Z) by reflexivity.
    rewrite add_int by lia. rewrite IH by lia. f_equal. lia.
Qed.

Lemma createRng_int seed : createRng seed = int (toUint32 seed).
Proof.
  unfold createRng, ushr.
  change (toUint32 0%Q mod 32)%Z with 0%Z. rewrite Z.shiftr_0_r. reflexivity.
Qed.

(** X1. Every value a generator returns is an integer multiple of 2^-32 between
    0 and 1 - 2^-32: the final division by 4294967296 is exact, whatever the
    state of the closure. *)
Theorem draws_are_multiples_of_2_pow_minus_32 :
  forall state : rng,
    exists u : Z,
      (0 <= u < 4294967296)%Z /\
      fst (next state) == inject_Z u / 4294967296 /\
      0 <= fst (next state) /\ fst (next state) <= 1 - pow2 (-32).
Proof.
  intros state. destruct (next_value state) as (u & E & Hu).
  exists u. split; [exact Hu |].
  assert (D : is_double (inject_Z u / 4294967296)).
  { apply (is_double_comp (inject_Z u * pow2 (-32))).
    - change (pow2 (-32)) with (1 # 4294967296). field.
    - apply dyadic_is_double; [lia |]. unfold two32 in Hu. lia. }
  assert (V : fst (next state) == inject_Z u / 4294967296).
  { rewrite E. exact D. }
  split; [exact V |]. rewrite V. unfold two32 in Hu.
  change (pow2 (-32)) with (1 # 4294967296).
  assert (A : 0 <= inject_Z u) by (rewrite <- (Zle_Qle 0); lia).
  assert (B : inject_Z u <= 4294967295).
  { change 4294967295 with (inject_Z 4294967295). rewrite <- Zle_Qle. lia. }
  split.
  - apply Qle_shift_div_l; [reflexivity | lra].
  - apply Qle_shift_div_r; [reflexivity |]. lra.
Qed.

(** X2. For the first four million calls of a generator the state, which the
    code never wraps, is the exact integer [seed + n * 0x6d2b79f5], and the
    value of call [n] is the mixing function applied to that counter
    reduced to 32 bits: nothing is lost to the growth of the state. *)
Theorem draw_is_mix_of_wrapped_counter :
  forall (seed : number) (n : nat),
    (Z.of_nat n < 4194000)%Z ->
    advance n (createRng seed)
    = int (toUint32 seed + Z.of_nat n * Weyl.increment) /\
    draw seed n
    = Weyl.mix (int ((toUint32 seed + (Z.of_nat n + 1) * Weyl.increment)
                     mod 4294967296)).
Proof.
  intros seed n Hn. pose proof (toUint32_range seed) as Hs.
  unfold two32 in Hs.
  assert (I : Weyl.increment = 1831565813%Z) by reflexivity.
  assert (A : advance n (createRng seed)
              = int (toUint32 seed + Z.of_nat n * Weyl.increment)).
  { rewrite createRng_int. apply advance_exact; [lia |].
    rewrite I. change (2 ^ 53)%Z with 9007199254740992%Z. lia. }
  split; [exact A |].
  unfold draw. rewrite A, next_mix. cbn [fst].
  rewrite add_int.
  - rewrite <- (mix_wrap (_ + _ + _)). f_equal. f_equal. unfold two32.
    f_equal. lia.
  - rewrite I. change (2 ^ 53)%Z with 9007199254740992%Z. lia.
Qed.

Lemma draw_is_mix_witness :
  advance 3 (createRng 311) = int (toUint32 311%Q + 3 * Weyl.increment) /\
  draw 311 3
  = Weyl.mix (int ((toUint32 311%Q + (3 + 1) * Weyl.increment) mod 4294967296)).
Proof.
  apply (draw_is_mix_of_wrapped_counter 311 3). lia.
Defined.

End RngExact.

(** ** The star layers: growth, identifiers, seeds *)

Section LayerFacts.

Import JS Rng.
Local Open Scope Q_scope.

(** *** Identifiers *)

Lemma dash_in_append v y :
  In "-"%char (list_ascii_of_string (String.append v (String "-" y))).
Proof. induction v as [| a v IH]; cbn; [left; reflexivity | right; exact IH]. Qed.

Lemma split_at_last_dash u : forall v x y,
  ~ In "-"%char (list_ascii_of_string x) -> ~ In "-"%char (list_ascii_of_string y) ->
  String.append u (String "-" x) = String.append v (String "-" y) ->
  u = v /\ x = y.
Proof.
  induction u as [| a u IH]; intros [| b v] x y Hx Hy E; cbn in E.
  - injection E as E. split; [reflexivity | exact E].
  - exfalso. injection E as _ E. apply Hx. rewrite E. apply dash_in_append.
  - exfalso. injection E as _ E. apply Hy. rewrite <- E. apply dash_in_append.
  - injection E as -> E. destruct (IH v x y Hx Hy E) as [-> ->].
    split; reflexivity.
Qed.

Lemma digits_have_no_dash d :
  ~ In "-"%char (list_ascii_of_string (NilEmpty.string_of_uint d)).
Proof.
  induction d; cbn; intros H; try (destruct H as [H | H];
    [discriminate H | exact (IHd H)]); exact H.
Qed.

Lemma toString_nonneg_has_no_dash i :
  (0 <= i)%Z -> ~ In "-"%char (list_ascii_of_string (toString i)).
Proof.
  intros Hi. unfold toString. destruct i as [| p | p]; [| | lia].
  - cbn. intros [H | H]; [discriminate H | exact H].
  - cbn [Z.to_int NilZero.string_of_int]. unfold NilZero.string_of_uint.
    destruct (Pos.to_uint p); try apply digits_have_no_dash.
    cbn. intros [H | H]; [discriminate H | exact H].
Qed.

Lemma toString_inj a b : toString a = toString b -> a = b.
Proof.
  unfold toString. intros E. apply DecimalZ.to_int_inj.
  assert (N : forall z, Z.to_int z <> Decimal.Pos Decimal.Nil /\
                        Z.to_int z <> Decimal.Neg Decimal.Nil).
  { intros [| p | p]; cbn; split; try discriminate;
      intros [= H]; exact (DecimalPos.Unsigned.to_uint_nonnil p H). }
  pose proof (NilZero.isi _ (proj1 (N a)) (proj2 (N a))) as Ha.
  pose proof (NilZero.isi _ (proj1 (N b)) (proj2 (N b))) as Hb.
  rewrite E in Ha. congruence.
Qed.

Lemma id_string_inj so1 i1 so2 i2 :
  (0 <= i1)%Z -> (0 <= i2)%Z ->
  String.append (toString so1) (String.append "-" (toString i1))
  = String.append (toString so2) (String.append "-" (toString i2)) ->
  so1 = so2 /\ i1 = i2.
Proof.
  intros H1 H2 E. cbn [String.append] in E.
  apply split_at_last_dash in E; try (apply toString_nonneg_has_no_dash; assumption).
  destruct E as [Ea Eb]. split; apply toString_inj; assumption.
Qed.

Lemma layer_lookup count so (i : nat) s :
  Stars.createStarPositions count so !! i = Some s ->
  s = Stars.star so (Z.of_nat i).
Proof.
  intros H. assert (Hi : (Z.of_nat i < count)%Z).
  { apply lookup_lt_Some in H. unfold Stars.createStarPositions in H.
    rewrite length_map, length_seq in H. lia. }
  rewrite createStarPositions_lookup in H by exact Hi. congruence.
Qed.

Lemma layerV_lookup count so (i : nat) s :
  StarsV.createStarPositions count so !! i = Some s ->
  s = StarsV.star so (Z.of_nat i).
Proof.
  intros H. assert (Hi : (Z.of_nat i < count)%Z).
  { apply lookup_lt_Some in H. unfold StarsV.createStarPositions in H.
    rewrite length_map, length_seq in H. lia. }
  rewrite createStarPositionsV_lookup in H by exact Hi. congruence.
Qed.

(** X4. The identifier of a descriptor names its star.  For counts the
    code accepts (below 2^32) and seed offsets that are safe integers (at
    most 2^53 in magnitude), where the template literal prints every digit:
    two descriptors, of any two layers, that carry the same identifier sit
    at the same index of layers with the same seed offset.  So the keys of
    a layer never repeat and layers with different offsets share no key.
    Both revisions. *)
Theorem star_id_names_the_star :
  forall (count1 count2 so1 so2 : Z) (i1 i2 : nat),
    (count1 < 4294967296)%Z -> (count2 < 4294967296)%Z ->
    (Z.abs so1 <= 9007199254740992)%Z ->
    (Z.abs so2 <= 9007199254740992)%Z ->
    (forall s1 s2,
       Stars.createStarPositions count1 so1 !! i1 = Some s1 ->
       Stars.createStarPositions count2 so2 !! i2 = Some s2 ->
       Stars.id s1 = Stars.id s2 -> so1 = so2 /\ i1 = i2) /\
    (forall s1 s2,
       StarsV.createStarPositions count1 so1 !! i1 = Some s1 ->
       StarsV.createStarPositions count2 so2 !! i2 = Some s2 ->
       StarsV.id s1 = StarsV.id s2 -> so1 = so2 /\ i1 = i2).
Proof.
  intros c1 c2 so1 so2 i1 i2 _ _ _ _.
  split; intros s1 s2 H1 H2 E.
  - apply layer_lookup in H1, H2. subst s1 s2. rewrite !star_id in E.
    apply id_string_inj in E; [| lia | lia]. split; [apply E | lia].
  - apply layerV_lookup in H1, H2. subst s1 s2. rewrite !starV_id in E.
    apply id_string_inj in E; [| lia | lia]. split; [apply E | lia].
Qed.

Lemma star_id_names_the_star_witness :
  (311 = 311)%Z /\ 3%nat = 3%nat.
Proof.
  assert (B1 : (55 < 4294967296)%Z) by lia.
  assert (B2 : (7 < 4294967296)%Z) by lia.
  assert (B3 : (Z.abs 311 <= 9007199254740992)%Z) by lia.
  apply (proj1 (star_id_names_the_star 55%Z 7%Z 311%Z 311%Z 3%nat 3%nat
                  B1 B2 B3 B3)
               (Stars.star 311 3) (Stars.star 311 3)).
  - apply createStarPositions_lookup. lia.
  - apply createStarPositions_lookup. lia.
  - reflexivity.
Defined.

(** X5. The variant keeps the stars of the reference revision: for the same
    seed offset and index the identifier, the position, the scale and the
    twinkle timing are the same; the colour, the glow and the shape jitter
    are drawn after them. *)
Theorem variant_keeps_reference_fields :
  forall seedOffset index : Z,
    let s := Stars.star seedOffset index in
    let v := StarsV.star seedOffset index in
    StarsV.id v = Stars.id s /\
    StarsV.top v = Stars.top s /\
    StarsV.left v = Stars.left s /\
    StarsV.scale v = Stars.scale s /\
    StarsV.twinkleDelay v = Stars.twinkleDelay s /\
    StarsV.twinkleDuration v = Stars.twinkleDuration s.
Proof.
  intros so i. unfold Stars.star, StarsV.star, run.
  unfold StarsV.starSeed, Stars.starSeed.
  generalize (createRng (add (int so) (mul (int i) (int 17)))). intros s0.
  unfold Stars.starFields, StarsV.starFields, mbind, Rand_bind, bind, random.
  repeat match goal with
         | |- context [next ?s] => destruct (next s) as [? ?]
         end.
  unfold StarsV.starColor.
  destruct (ltb _ _); [| destruct (ltb _ _)];
    unfold mbind, mret, Rand_bind, Rand_ret, bind, ret, random;
    repeat match goal with
           | |- context [next ?s] => destruct (next s) as [? ?]
           end;
    cbn; repeat split; reflexivity.
Qed.

(** *** Seeds *)

Lemma mul_int a b :
  (Z.abs (a * b) <= 2 ^ 53)%Z -> mul (int a) (int b) = int (a * b).
Proof.
  intros H. unfold mul.
  rewrite (round64_comp _ (int (a * b)))
    by (unfold int; rewrite inject_Z_mult; reflexivity).
  rewrite (round64_exact _ (int_is_double _ H)). apply Qred_int.
Qed.

Lemma starSeed_exact so i :
  (Z.abs so <= 2 ^ 40)%Z -> (Z.abs i <= 2 ^ 40)%Z ->
  createRng (Stars.starSeed so i) = int ((so + i * 17) mod 4294967296).
Proof.
  intros Hs Hi. change (2 ^ 40)%Z with 1099511627776%Z in *.
  unfold Stars.starSeed.
  rewrite mul_int by (change (2 ^ 53)%Z with 9007199254740992%Z; lia).
  rewrite add_int by (change (2 ^ 53)%Z with 9007199254740992%Z; lia).
  rewrite createRng_int, toUint32_int. reflexivity.
Qed.

Lemma star_fields_by_state so1 i1 so2 i2 state :
  let s1 := fst (Stars.starFields so1 i1 state) in
  let s2 := fst (Stars.starFields so2 i2 state) in
  Stars.top s1 = Stars.top s2 /\ Stars.left s1 = Stars.left s2 /\
  Stars.scale s1 = Stars.scale s2 /\
  Stars.twinkleDelay s1 = Stars.twinkleDelay s2 /\
  Stars.twinkleDuration s1 = Stars.twinkleDuration s2.
Proof.
  unfold Stars.starFields, mbind, Rand_bind, bind, random.
  repeat match goal with
         | |- context [next ?s] => destruct (next s) as [? ?]
         end.
  cbn. repeat split; reflexivity.
Qed.

(** X6. The random fields of a star depend on [seedOffset + index * 17] modulo
    2^32 and on nothing else: two stars whose seeds agree modulo 2^32 have
    the same position, scale and twinkle timing.  (Offsets and indices up to
    2^40, where the sum is exact.) *)
Theorem star_fields_depend_on_seed_mod_2_pow_32 :
  forall so1 i1 so2 i2 : Z,
    (Z.abs so1 <= 2 ^ 40)%Z -> (Z.abs i1 <= 2 ^ 40)%Z ->
    (Z.abs so2 <= 2 ^ 40)%Z -> (Z.abs i2 <= 2 ^ 40)%Z ->
    ((so1 + i1 * 17) mod 4294967296 = (so2 + i2 * 17) mod 4294967296)%Z ->
    let s1 := Stars.star so1 i1 in
    let s2 := Stars.star so2 i2 in
    Stars.top s1 = Stars.top s2 /\ Stars.left s1 = Stars.left s2 /\
    Stars.scale s1 = Stars.scale s2 /\
    Stars.twinkleDelay s1 = Stars.twinkleDelay s2 /\
    Stars.twinkleDuration s1 = Stars.twinkleDuration s2.
Proof.
  intros so1 i1 so2 i2 A1 B1 A2 B2 E. unfold Stars.star, run.
  rewrite (starSeed_exact so1 i1 A1 B1), (starSeed_exact so2 i2 A2 B2), E.
  apply star_fields_by_state.
Qed.

Lemma star_fields_depend_on_seed_witness :
  let s1 := Stars.star 17%Z 0%Z in
  let s2 := Stars.star 0%Z 1%Z in
  Stars.top s1 = Stars.top s2 /\ Stars.left s1 = Stars.left s2 /\
  Stars.scale s1 = Stars.scale s2 /\
  Stars.twinkleDelay s1 = Stars.twinkleDelay s2 /\
  Stars.twinkleDuration s1 = Stars.twinkleDuration s2.
Proof.
  apply (star_fields_depend_on_seed_mod_2_pow_32 17%Z 0%Z 0%Z 1%Z);
    vm_compute; congruence.
Defined.

Lemma bind_fst_snd {A B} (m : Rand A) (k : A -> Rand B) (s : rng) :
  bind m k s = k (fst (m s)) (snd (m s)).
Proof. unfold bind. destruct (m s). reflexivity. Qed.

(** X7. In the variant a white star draws two values fewer than a coloured
    one: its glow comes from the seventh value of its generator and its
    shape jitter from the eighth, where a blue-white or warm star uses the
    ninth and the tenth. *)
Theorem variant_glow_and_shape_draws :
  forall seedOffset index : Z,
    let v := StarsV.star seedOffset index in
    let seed := StarsV.starSeed seedOffset index in
    let t := StarsV.colorType seedOffset index in
    let white := negb (ltb t (lit (7 # 10))) && ltb t (lit (9 # 10)) in
    StarsV.glowIntensity v
    = add (lit (6 # 10))
          (mul (draw seed (if white then 6 else 8)) (lit (4 # 10))) /\
    StarsV.shapeVariation v = draw seed (if white then 7 else 9).
Proof.
  intros so i. cbv zeta.
  unfold StarsV.star, StarsV.colorType, run, draw.
  generalize (createRng (StarsV.starSeed so i)). intros s0.
  unfold StarsV.starFields, StarsV.starColor.
  generalize (lit (7 # 10)) (lit (9 # 10)) (lit (6 # 10)) (lit (4 # 10))
             (lit (35 # 100)) (lit (55 # 10)).
  intros c7 c9 c6 c4 c35 c55.
  unfold mbind, mret, Rand_bind, Rand_ret, random.
  cbn [advance].
  do 6 (rewrite bind_fst_snd; cbv beta).
  match goal with
  | |- context [ltb ?t c7] => destruct (ltb t c7); [| destruct (ltb t c9)]
  end;
    cbn [negb andb advance];
    generalize next; intros nx;
    repeat (rewrite bind_fst_snd; cbv beta);
    unfold ret; cbn [fst snd StarsV.glowIntensity StarsV.shapeVariation];
    split; reflexivity.
Qed.

End LayerFacts.

(** ** The parallax driver: offsets, settling, teardown *)

Section DriverMore.

Import JS Parallax Driver.
Local Open Scope Q_scope.

Lemma is_double_closed_1 : is_double 1.
Proof. unfold is_double. vm_compute. reflexivity. Qed.

Lemma is_double_closed_half : is_double (1 # 2) /\ is_double (- (1 # 2)).
Proof. unfold is_double. split; vm_compute; reflexivity. Qed.

Lemma is_double_closed_m1 : is_double (- (1)).
Proof. unfold is_double. vm_compute. reflexivity. Qed.

Lemma lit_half : lit (5 # 10) = 1 # 2.
Proof. vm_compute. reflexivity. Qed.

(** One axis of [handlePointerMove]. *)
Lemma axis_target_range c lo w :
  is_double w -> 0 < w -> lo <= c -> c <= lo + w ->
  unit_range (mul (sub (div (sub c lo) w) (lit (5 # 10))) (int 2)).
Proof.
  intros Dw Hw H1 H2. unfold unit_range, mul, sub, div. rewrite lit_half.
  split; [apply round64_is_double |].
  assert (A1 : 0 <= round64 (c - lo)) by (apply round64_nonneg; lra).
  assert (A2 : round64 (c - lo) <= w)
    by (apply round64_le_double; [exact Dw | lra]).
  set (a := round64 (c - lo)) in *.
  assert (Q1 : 0 <= a / w) by (apply Qle_shift_div_l; lra).
  assert (Q2 : a / w <= 1) by (apply Qle_shift_div_r; lra).
  assert (B1 : 0 <= round64 (a / w)) by (apply round64_nonneg; exact Q1).
  assert (B2 : round64 (a / w) <= 1)
    by (apply round64_le_double; [exact is_double_closed_1 | exact Q2]).
  set (b := round64 (a / w)) in *.
  assert (C1 : - (1 # 2) <= round64 (b - (1 # 2)))
    by (apply round64_ge_double; [apply is_double_closed_half | lra]).
  assert (C2 : round64 (b - (1 # 2)) <= 1 # 2)
    by (apply round64_le_double; [apply is_double_closed_half | lra]).
  set (r := round64 (b - (1 # 2))) in *.
  unfold int. change (inject_Z 2) with 2. split.
  - apply round64_ge_double; [exact is_double_closed_m1 | lra].
  - apply round64_le_double; [exact is_double_closed_1 | lra].
Qed.

(** X8. While the pointer is over the container, [handlePointerMove] sets a
    target between -1 and 1 on each axis. *)
Theorem handlePointerMove_target_in_unit_square :
  forall (clientX clientY : number) (rect : DOMRect) (st : state),
    inside clientX clientY rect ->
    let st' := handlePointerMove clientX clientY rect st in
    (-1 <= x (targetRef st') /\ x (targetRef st') <= 1) /\
    (-1 <= y (targetRef st') /\ y (targetRef st') <= 1).
Proof.
  intros cx cy rect st (Dw & Dh & Hw & Hh & X1 & X2 & Y1 & Y2).
  assert (T : targetRef (handlePointerMove cx cy rect st)
              = {| x := mul (sub (div (sub cx (rect_left rect))
                                      (rect_width rect)) (lit (5 # 10)))
                            (int 2);
                   y := mul (sub (div (sub cy (rect_top rect))
                                      (rect_height rect)) (lit (5 # 10)))
                            (int 2) |}).
  { unfold handlePointerMove, requestIfIdle, setTarget. cbn.
    destruct (rafRef st); reflexivity. }
  cbv zeta. rewrite T. cbn [x y]. split.
  - apply (axis_target_range cx _ _ Dw Hw X1 X2).
  - apply (axis_target_range cy _ _ Dh Hh Y1 Y2).
Qed.

Lemma handlePointerMove_witness :
  let rect := {| rect_left := 0; rect_top := 0;
                 rect_width := 800; rect_height := 600 |} in
  let st' := handlePointerMove 200 450 rect mounted in
  (-1 <= x (targetRef st') /\ x (targetRef st') <= 1) /\
  (-1 <= y (targetRef st') /\ y (targetRef st') <= 1).
Proof.
  intros rect.
  apply (handlePointerMove_target_in_unit_square 200 450 rect mounted).
  unfold inside, is_double. repeat split; vm_compute; congruence.
Defined.

Lemma ease_unit_range s t : unit_range s -> unit_range t -> unit_range (ease s t).
Proof.
  intros (Ds & S1 & S2) (Dt & T1 & T2).
  destruct (ease_between s t Ds Dt) as [Up Down].
  split; [unfold ease, add; apply round64_is_double |].
  destruct (Qlt_le_dec t s) as [L | L].
  - destruct Down as [A B]; [lra |]. split; lra.
  - destruct Up as [A B]; [exact L |]. split; lra.
Qed.

Lemma updateParallax_refs st :
  targetRef (updateParallax st) = targetRef st /\
  smoothRef (updateParallax st)
  = {| x := ease (x (smoothRef st)) (x (targetRef st));
       y := ease (y (smoothRef st)) (y (targetRef st)) |} /\
  listening (updateParallax st) = listening st.
Proof.
  unfold updateParallax. destruct (_ || _); repeat split; reflexivity.
Qed.

(** Both offsets on both axes are doubles between -1 and 1. *)
Lemma unit_square_step st e :
  pointer_inside e ->
  (unit_range (x (targetRef st)) /\ unit_range (y (targetRef st))) /\
  (unit_range (x (smoothRef st)) /\ unit_range (y (smoothRef st))) ->
  (unit_range (x (targetRef (step st e))) /\
   unit_range (y (targetRef (step st e)))) /\
  (unit_range (x (smoothRef (step st e))) /\
   unit_range (y (smoothRef (step st e)))).
Proof.
  intros He [[Tx Ty] [Sx Sy]].
  destruct e as [cx cy rect | | h |]; cbn [step].
  - destruct (listening st); [| tauto].
    destruct He as (Dw & Dh & Hw & Hh & X1 & X2 & Y1 & Y2).
    unfold handlePointerMove, requestIfIdle, setTarget.
    cbn [rafRef]. destruct (rafRef st); cbn [targetRef smoothRef requestFrame x y];
      (split; [split | tauto]);
      first [ apply (axis_target_range cx _ _ Dw Hw X1 X2)
            | apply (axis_target_range cy _ _ Dh Hh Y1 Y2) ].
  - destruct (listening st); [| tauto].
    assert (Z : unit_range (int 0)).
    { unfold unit_range, is_double. repeat split; vm_compute; congruence. }
    unfold handlePointerLeave, requestIfIdle, setTarget.
    cbn [rafRef]. destruct (rafRef st); cbn [targetRef smoothRef requestFrame x y];
      tauto.
  - case_bool_decide; [| tauto].
    match goal with |- context [updateParallax ?s] =>
      destruct (updateParallax_refs s) as (E1 & E2 & _) end.
    rewrite E1, E2. cbn [targetRef smoothRef x y].
    split; [tauto |]. split; apply ease_unit_range; assumption.
  - destruct (listening st); cbn; tauto.
Qed.

Lemma unit_square_run es :
  Forall pointer_inside es ->
  (unit_range (x (targetRef (run es))) /\ unit_range (y (targetRef (run es)))) /\
  (unit_range (x (smoothRef (run es))) /\ unit_range (y (smoothRef (run es)))).
Proof.
  unfold run. induction es as [| e es IH] using rev_ind; intros H.
  - assert (Z : unit_range (int 0)).
    { unfold unit_range, is_double. repeat split; vm_compute; congruence. }
    cbn. tauto.
  - apply Forall_app in H. destruct H as [H1 H2].
    rewrite fold_left_app. cbn [fold_left].
    apply unit_square_step; [| apply IH, H1].
    apply Forall_cons in H2. tauto.
Qed.

(** X9. However the pointer moves over the container, whichever frames run and
    whenever the effect is cleaned up, the target and the smoothed offset
    stay between -1 and 1 on both axes. *)
Theorem parallax_offsets_stay_in_unit_square :
  forall es : list event,
    Forall pointer_inside es ->
    let st := run es in
    (-1 <= x (targetRef st) /\ x (targetRef st) <= 1) /\
    (-1 <= y (targetRef st) /\ y (targetRef st) <= 1) /\
    (-1 <= x (smoothRef st) /\ x (smoothRef st) <= 1) /\
    (-1 <= y (smoothRef st) /\ y (smoothRef st) <= 1).
Proof.
  intros es H st.
  destruct (unit_square_run es H) as [[Tx Ty] [Sx Sy]]. fold st in Tx, Ty, Sx, Sy.
  unfold unit_range in *. tauto.
Qed.

Lemma parallax_offsets_witness :
  let rect := {| rect_left := 0; rect_top := 0;
                 rect_width := 800; rect_height := 600 |} in
  let st := run [PointerMove 200 450 rect; Frame 1; PointerLeave; Frame 2] in
  (-1 <= x (targetRef st) /\ x (targetRef st) <= 1) /\
  (-1 <= y (targetRef st) /\ y (targetRef st) <= 1) /\
  (-1 <= x (smoothRef st) /\ x (smoothRef st) <= 1) /\
  (-1 <= y (smoothRef st) /\ y (smoothRef st) <= 1).
Proof.
  intros rect.
  apply (parallax_offsets_stay_in_unit_square
           [PointerMove 200 450 rect; Frame 1; PointerLeave; Frame 2]).
  apply Forall_cons. split.
  - unfold pointer_inside, inside, is_double.
    repeat split; vm_compute; congruence.
  - repeat (apply Forall_cons; split; [exact I |]). constructor.
Defined.

(** *** Settling *)

Lemma delta_settled s t n :
  Qabs s <= 2 -> Qabs t <= 2 -> (200 <= n)%nat ->
  gtb (delta (settle n s t) t) threshold = false.
Proof.
  intros Hs Ht Hn. pose proof (settled_after_200 s t n Hs Ht Hn) as H.
  assert (T : (9 # 10000) + pow2 (-51) <= threshold)
    by (vm_compute; discriminate).
  rewrite ulp51_value in T.
  unfold gtb, ltb, delta, abs, sub.
  assert (L : Qred (Qabs (round64 (t - settle n s t))) <= threshold).
  { rewrite Qred_correct.
    assert (E : Qabs (round64 (t - settle n s t) - (t - settle n s t))
                <= pow2 (-51)).
    { apply round64_err_small. lra. }
    rewrite ulp51_value in E.
    apply Qabs_Qle_condition in E. apply Qabs_Qle_condition in H.
    apply Qabs_Qle_condition. lra. }
  apply Qle_bool_iff in L. rewrite L. reflexivity.
Qed.

(** One frame callback of a mounted driver. *)
Lemma frame_step st h rest :
  consistent st -> listening st = true -> frames st = h :: rest ->
  let st' := step st (Frame h) in
  consistent st' /\ listening st' = true /\
  targetRef st' = targetRef st /\
  smoothRef st' = {| x := ease (x (smoothRef st)) (x (targetRef st));
                     y := ease (y (smoothRef st)) (y (targetRef st)) |} /\
  (frames st' = [] \/ moving st' = true).
Proof.
  intros C L F st'.
  assert (C' : consistent st') by apply step_consistent, C.
  assert (Hin : h ∈ frames st) by (rewrite F; left).
  assert (Fl : filter (fun h' => h' <> h) (frames st) = []).
  { unfold consistent in C. rewrite L in C.
    destruct (rafRef st) as [h0 |]; rewrite C in Hin |- *;
      [| inversion Hin].
    apply list_elem_of_singleton in Hin. subst h0. apply filter_out_only. }
  unfold st'. cbn [step]. rewrite (bool_decide_eq_true_2 _ Hin).
  fold (step st (Frame h)) in C'.
  match goal with |- context [updateParallax ?s] => set (st0 := s) end.
  destruct (updateParallax_refs st0) as (E1 & E2 & E3).
  assert (C0 : consistent (updateParallax st0)).
  { unfold st' in C'. cbn [step] in C'.
    rewrite (bool_decide_eq_true_2 _ Hin) in C'. exact C'. }
  split; [exact C0 |]. split; [rewrite E3; exact L |].
  split; [exact E1 |]. split; [exact E2 |].
  unfold moving. rewrite E1, E2. cbn [x y].
  unfold updateParallax. cbn [targetRef smoothRef frames st0 x y].
  rewrite Fl.
  destruct (gtb (delta (ease (x (smoothRef st)) (x (targetRef st)))
                       (x (targetRef st))) threshold
            || gtb (delta (ease (y (smoothRef st)) (y (targetRef st)))
                          (y (targetRef st))) threshold) eqn:B.
  - right. reflexivity.
  - left. reflexivity.
Qed.

Lemma animate_step n st h rest :
  frames st = h :: rest -> animate (S n) st = animate n (step st (Frame h)).
Proof. intros F. change (animate (S n) st) with
  (match frames st with [] => st | h :: _ => animate n (step st (Frame h)) end).
  rewrite F. reflexivity.
Qed.

Lemma animate_idle n st : frames st = [] -> animate n st = st.
Proof. intros F. destruct n as [| n]; [reflexivity |].
  change (animate (S n) st) with
  (match frames st with [] => st | h :: _ => animate n (step st (Frame h)) end).
  rewrite F. reflexivity.
Qed.

Lemma step_frame_target st h :
  targetRef (step st (Frame h)) = targetRef st.
Proof.
  cbn [step]. destruct (bool_decide _); [| reflexivity].
  match goal with |- context [updateParallax ?s] =>
    exact (proj1 (updateParallax_refs s)) end.
Qed.

Lemma animate_target n : forall st,
  targetRef (animate n st) = targetRef st.
Proof.
  induction n as [| n IH]; intros st; [reflexivity |].
  destruct (frames st) as [| h rest] eqn:F.
  - rewrite (animate_idle _ _ F). reflexivity.
  - rewrite (animate_step _ _ _ _ F), IH. apply step_frame_target.
Qed.

Lemma animate_settles n : forall st,
  consistent st -> listening st = true ->
  let st' := animate (S n) st in
  consistent st' /\ listening st' = true /\
  (frames st' = [] \/
   (moving st' = true /\ targetRef st' = targetRef st /\
    x (smoothRef st') = settle (S n) (x (smoothRef st)) (x (targetRef st)) /\
    y (smoothRef st') = settle (S n) (y (smoothRef st)) (y (targetRef st)))).
Proof.
  induction n as [| n IH]; intros st C L; cbv zeta.
  - destruct (frames st) as [| h rest] eqn:F.
    + rewrite (animate_idle _ _ F).
      split; [exact C |]. split; [exact L |]. left. exact F.
    + rewrite (animate_step _ _ _ _ F). cbn [animate].
      destruct (frame_step st h rest C L F) as (C' & L' & T & Sm & M).
      split; [exact C' |]. split; [exact L' |].
      destruct M as [M | M]; [left; exact M | right].
      split; [exact M |]. split; [exact T |]. rewrite Sm. cbn [x y settle].
      split; reflexivity.
  - destruct (frames st) as [| h rest] eqn:F.
    + rewrite (animate_idle _ _ F).
      split; [exact C |]. split; [exact L |]. left. exact F.
    + rewrite (animate_step _ _ _ _ F).
      destruct (frame_step st h rest C L F) as (C' & L' & T & Sm & _).
      destruct (IH _ C' L') as (C2 & L2 & M).
      split; [exact C2 |]. split; [exact L2 |].
      destruct M as [M | (M & T2 & X2 & Y2)]; [left; exact M | right].
      split; [exact M |]. split; [rewrite T2; exact T |].
      rewrite X2, Y2, T, Sm. cbn [x y].
      split; reflexivity.
Qed.

Lemma animate_200_idle es :
  Forall pointer_inside es ->
  let st := animate 200 (run es) in
  frames st = [] /\ (rafRef st = None \/ listening st = false) /\
  listening st = listening (run es) /\ targetRef st = targetRef (run es).
Proof.
  intros H.
  pose proof (run_consistent es) as C.
  destruct (unit_square_run es H) as [[Tx Ty] [Sx Sy]].
  set (st0 := run es) in *.
  assert (B : forall v, unit_range v -> Qabs v <= 2).
  { intros v (_ & A1 & A2). apply Qabs_Qle_condition. lra. }
  destruct (listening st0) eqn:L.
  - destruct (animate_settles 199 st0 C L) as (C' & L' & M).
    change (animate (S 199) st0) with (animate 200 st0) in *.
    cbv zeta. set (st := animate 200 st0) in *.
    assert (F : frames st = []).
    { destruct M as [M | (M & T & X & Y)]; [exact M | exfalso].
      unfold moving in M. rewrite X, Y, T in M.
      rewrite (delta_settled _ _ 200 (B _ Sx) (B _ Tx)) in M by lia.
      rewrite (delta_settled _ _ 200 (B _ Sy) (B _ Ty)) in M by lia.
      discriminate M. }
    split; [exact F |]. split; [| split; [exact L' | apply animate_target]].
    left. unfold consistent in C'. rewrite L', F in C'.
    destruct (rafRef st); [discriminate C' | reflexivity].
  - assert (F : frames st0 = []).
    { unfold consistent in C. rewrite L in C. exact C. }
    assert (E : animate 200 st0 = st0) by apply animate_idle, F.
    cbv zeta. rewrite E. split; [exact F |]. split; [right; exact L |].
    split; [exact L | reflexivity].
Qed.

(** X10. Once the pointer rests, the animation stops by itself: after any events
    with the pointer over the container, at most 200 frame callbacks run
    before none is pending and, unless the effect was cleaned up, [rafRef]
    is null again. *)
Theorem animation_stops_within_200_frames :
  forall es : list event,
    Forall pointer_inside es ->
    let st := animate 200 (run es) in
    frames st = [] /\ (rafRef st = None \/ listening st = false).
Proof.
  intros es H. destruct (animate_200_idle es H) as (F & R & _).
  split; assumption.
Qed.

Lemma animation_stops_witness :
  let rect := {| rect_left := 0; rect_top := 0;
                 rect_width := 800; rect_height := 600 |} in
  let st := animate 200 (run [PointerMove 200 450 rect]) in
  frames st = [] /\ (rafRef st = None \/ listening st = false).
Proof.
  intros rect.
  apply (animation_stops_within_200_frames [PointerMove 200 450 rect]).
  apply Forall_cons. split; [| constructor].
  unfold pointer_inside, inside, is_double.
  repeat split; vm_compute; congruence.
Defined.

(** *** Idle means arrived *)

Lemma delta_refl v : gtb (delta v v) threshold = false.
Proof.
  unfold gtb, ltb, delta, abs, sub.
  assert (E : v - v == 0) by ring.
  assert (Z0 : round64 (v - v) == 0).
  { rewrite (round64_zero _ E). apply Qeq_refl. }
  assert (L : Qred (Qabs (round64 (v - v))) <= threshold).
  { rewrite Qred_correct, Z0. vm_compute. discriminate. }
  apply Qle_bool_iff in L. rewrite L. reflexivity.
Qed.

Lemma idle_step st e :
  (rafRef st = None -> moving st = false) ->
  (rafRef (step st e) = None -> moving (step st e) = false).
Proof.
  intros I. destruct e as [cx cy rect | | h |]; cbn [step].
  - destruct (listening st); [| exact I].
    unfold handlePointerMove, requestIfIdle.
    match goal with |- context [setTarget ?t st] => set (st1 := setTarget t st) end.
    destruct (rafRef st1) as [h |] eqn:R.
    + rewrite R. discriminate.
    + unfold requestFrame. cbn [rafRef]. discriminate.
  - destruct (listening st); [| exact I].
    unfold handlePointerLeave, requestIfIdle.
    match goal with |- context [setTarget ?t st] => set (st1 := setTarget t st) end.
    destruct (rafRef st1) as [h |] eqn:R.
    + rewrite R. discriminate.
    + unfold requestFrame. cbn [rafRef]. discriminate.
  - destruct (bool_decide (h ∈ frames st)); [| exact I].
    unfold updateParallax, moving. cbv zeta.
    cbn [targetRef smoothRef x y].
    destruct (gtb (delta (ease (x (smoothRef st)) (x (targetRef st)))
                         (x (targetRef st))) threshold
              || gtb (delta (ease (y (smoothRef st)) (y (targetRef st)))
                            (y (targetRef st))) threshold) eqn:B.
    + unfold requestFrame. cbn [rafRef]. discriminate.
    + cbn [rafRef smoothRef targetRef x y]. intros _. exact B.
  - destruct (listening st); exact I.
Qed.

Lemma idle_animate n : forall st,
  (rafRef st = None -> moving st = false) ->
  rafRef (animate n st) = None -> moving (animate n st) = false.
Proof.
  induction n as [| n IH]; intros st I; [exact I |].
  destruct (frames st) as [| h rest] eqn:F.
  - rewrite (animate_idle _ _ F). exact I.
  - rewrite (animate_step _ _ _ _ F). apply IH, idle_step, I.
Qed.

Lemma idle_fold es : forall s0,
  (rafRef s0 = None -> moving s0 = false) ->
  rafRef (fold_left step es s0) = None ->
  moving (fold_left step es s0) = false.
Proof.
  induction es as [| e l IH]; intros s0 H0; [exact H0 |].
  cbn [fold_left]. apply IH, idle_step, H0.
Qed.

Lemma idle_run es : rafRef (run es) = None -> moving (run es) = false.
Proof.
  apply idle_fold. intros _. unfold moving, mounted.
  cbn [smoothRef targetRef x y].
  rewrite (delta_refl (int 0)). reflexivity.
Qed.

(** X11. The animation loop is idle only when it has arrived: in every state
    the driver reaches through events with the pointer over the container,
    when [rafRef] is null the displayed offset is within 0.001 of the
    target on both axes. *)
Theorem idle_only_when_arrived :
  forall es : list event,
    Forall pointer_inside es ->
    let st := run es in
    rafRef st = None ->
    gtb (delta (x (smoothRef st)) (x (targetRef st))) threshold = false /\
    gtb (delta (y (smoothRef st)) (y (targetRef st))) threshold = false.
Proof.
  intros es _ st R. pose proof (idle_run es R) as M.
  unfold moving in M. apply orb_false_iff in M. exact M.
Qed.

Lemma idle_only_when_arrived_witness :
  let rect := {| rect_left := 0; rect_top := 0;
                 rect_width := 800; rect_height := 600 |} in
  let st := run (PointerMove 200 450 rect :: map Frame (seq 1 200)) in
  gtb (delta (x (smoothRef st)) (x (targetRef st))) threshold = false /\
  gtb (delta (y (smoothRef st)) (y (targetRef st))) threshold = false.
Proof.
  intros rect.
  apply (idle_only_when_arrived
           (PointerMove 200 450 rect :: map Frame (seq 1 200))).
  - apply Forall_cons. split.
    + unfold pointer_inside, inside, is_double.
      repeat split; vm_compute; congruence.
    + apply Forall_forall. intros e He. apply list_elem_of_In in He.
      apply in_map_iff in He. destruct He as (h & <- & _). exact I.
  - vm_compute. reflexivity.
Defined.

(** *** The pointer leaves *)

(** X12. When the pointer leaves while the effect is mounted, the target is the
    centre, and within 200 frames the loop is idle with the displayed offset
    within 0.001 of the centre on both axes. *)
Theorem pointer_leave_returns_to_the_centre :
  forall es : list event,
    Forall pointer_inside es ->
    listening (run es) = true ->
    let st := animate 200 (step (run es) PointerLeave) in
    targetRef st = {| x := int 0; y := int 0 |} /\
    rafRef st = None /\ frames st = [] /\
    gtb (delta (x (smoothRef st)) (int 0)) threshold = false /\
    gtb (delta (y (smoothRef st)) (int 0)) threshold = false.
Proof.
  intros es H L.
  assert (E : step (run es) PointerLeave = run (es ++ [PointerLeave])).
  { unfold run. rewrite fold_left_app. reflexivity. }
  assert (H' : Forall pointer_inside (es ++ [PointerLeave])).
  { apply Forall_app. split; [exact H |]. repeat constructor. }
  rewrite E. destruct (animate_200_idle _ H') as (F & R & L' & T).
  cbv zeta. set (st := animate 200 (run (es ++ [PointerLeave]))) in *.
  assert (L1 : listening (run (es ++ [PointerLeave])) = true).
  { rewrite <- E. cbn [step]. rewrite L.
    unfold handlePointerLeave, requestIfIdle.
    match goal with |- context [setTarget ?t ?s] =>
      set (st1 := setTarget t s) end.
    destruct (rafRef st1); exact L. }
  assert (T1 : targetRef (run (es ++ [PointerLeave]))
               = {| x := int 0; y := int 0 |}).
  { rewrite <- E. cbn [step]. rewrite L.
    unfold handlePointerLeave, requestIfIdle.
    match goal with |- context [setTarget ?t ?s] =>
      set (st1 := setTarget t s) end.
    destruct (rafRef st1); reflexivity. }
  rewrite T1 in T. rewrite L1 in L'.
  assert (R' : rafRef st = None).
  { destruct R as [R | R]; [exact R | congruence]. }
  split; [exact T |]. split; [exact R' |]. split; [exact F |].
  assert (M : moving st = false).
  { apply idle_animate; [apply idle_run | exact R']. }
  unfold moving in M. rewrite T in M. cbn [x y] in M.
  apply orb_false_iff in M. exact M.
Qed.

Lemma pointer_leave_witness :
  let rect := {| rect_left := 0; rect_top := 0;
                 rect_width := 800; rect_height := 600 |} in
  let st := animate 200 (step (run [PointerMove 200 450 rect; Frame 1])
                              PointerLeave) in
  targetRef st = {| x := int 0; y := int 0 |} /\
  rafRef st = None /\ frames st = [] /\
  gtb (delta (x (smoothRef st)) (int 0)) threshold = false /\
  gtb (delta (y (smoothRef st)) (int 0)) threshold = false.
Proof.
  intros rect.
  apply (pointer_leave_returns_to_the_centre
           [PointerMove 200 450 rect; Frame 1]).
  - apply Forall_cons. split.
    + unfold pointer_inside, inside, is_double.
      repeat split; vm_compute; congruence.
    + repeat (apply Forall_cons; split; [exact I |]). constructor.
  - vm_compute. reflexivity.
Defined.

(** *** Teardown *)

Lemma step_after_cleanup st e :
  listening st = false -> frames st = [] -> step st e = st.
Proof.
  intros L F. destruct e as [cx cy rect | | h |]; cbn [step]; rewrite ?L;
    try reflexivity.
  rewrite F. reflexivity.
Qed.

(** X13. After the cleanup of the parallax effect no frame is pending, and no
    pointer event or frame callback that still arrives changes anything. *)
Theorem parallax_cleanup_is_final :
  forall es later : list event,
    let st := step (run es) Unmount in
    frames st = [] /\ listening st = false /\ fold_left step later st = st.
Proof.
  intros es later st.
  assert (C : consistent st) by apply step_consistent, run_consistent.
  assert (L : listening st = false).
  { unfold st. cbn [step]. destruct (listening (run es)) eqn:E; [reflexivity | exact E]. }
  assert (F : frames st = []).
  { unfold consistent in C. rewrite L in C. exact C. }
  split; [exact F |]. split; [exact L |]. clearbody st.
  induction later as [| e later IH]; [reflexivity |].
  cbn [fold_left]. rewrite (step_after_cleanup st e L F). exact IH.
Qed.

End DriverMore.

(** ** The shooting-star scheduler: what the refs and the list hold *)

Section SchedulerMore.

Import JS Shooting Scheduler.

Lemma sorted_snoc (l : list Z) (x : Z) :
  StronglySorted Z.lt l -> Forall (fun k => (k < x)%Z) l ->
  StronglySorted Z.lt (l ++ [x]).
Proof.
  induction l as [| a l IH]; intros S F; cbn.
  - repeat constructor.
  - apply StronglySorted_inv in S. destruct S as [S Fa].
    apply Forall_cons in F. destruct F as [Hax F].
    constructor; [apply IH; assumption |].
    apply Forall_app. split; [exact Fa |]. repeat constructor. exact Hax.
Qed.

Lemma sorted_filter_ids (P : ShootingStar -> Prop)
    `{forall s, Decision (P s)} (l : list ShootingStar) :
  StronglySorted Z.lt (id <$> l) ->
  StronglySorted Z.lt (id <$> filter P l).
Proof.
  induction l as [| a l IH]; intros S; [constructor |].
  cbn [fmap list_fmap] in S. apply StronglySorted_inv in S.
  destruct S as [S Fa]. rewrite filter_cons.
  destruct (decide (P a)); [| apply IH, S].
  cbn [fmap list_fmap]. constructor; [apply IH, S |].
  rewrite Forall_forall in Fa |- *. intros k Hk. apply Fa.
  apply list_elem_of_fmap in Hk. destruct Hk as (s & -> & Hs).
  apply list_elem_of_filter in Hs. destruct Hs as [_ Hs].
  apply list_elem_of_fmap. exists s. split; [reflexivity | exact Hs].
Qed.

Lemma Forall_filter_ids (Q : Z -> Prop) (P : ShootingStar -> Prop)
    `{forall s, Decision (P s)} (l : list ShootingStar) :
  Forall Q (id <$> l) -> Forall Q (id <$> filter P l).
Proof.
  rewrite !Forall_forall. intros F k Hk. apply F.
  apply list_elem_of_fmap in Hk. destruct Hk as (s & -> & Hs).
  apply list_elem_of_filter in Hs. destruct Hs as [_ Hs].
  apply list_elem_of_fmap. exists s. split; [reflexivity | exact Hs].
Qed.

Lemma inv_initial : inv initial.
Proof.
  split; cbn.
  - intros h t H. rewrite lookup_empty in H. discriminate.
  - intros h H. apply elem_of_empty in H. destruct H.
  - discriminate.
  - constructor.
  - constructor.
  - lia.
Qed.

Lemma inv_mount st : inv st -> inv (mount st).
Proof.
  intros I. split; cbn.
  - intros h t H. apply lookup_insert_Some in H.
    destruct H as [[<- _] | [_ H]]; [lia |].
    pose proof (inv_fresh st I h t H). lia.
  - intros h H. destruct (inv_tracked st I h H) as (t & k & Ht & Rt).
    exists t, k. split; [| exact Rt]. cbn.
    rewrite lookup_insert_ne; [exact Ht |].
    pose proof (inv_fresh st I h t Ht). lia.
  - intros _. exists (nextTimer st). split; [reflexivity |].
    eexists. cbn. split; [apply lookup_insert_eq | reflexivity].
  - apply (inv_sorted st I).
  - apply (inv_ids st I).
  - apply (inv_count st I).
Qed.

Lemma cleanup_lookup st h t :
  timers (cleanup st) !! h = Some t -> timers st !! h = Some t.
Proof.
  cbn. rewrite clearAll_lookup.
  destruct (decide (h ∈ removalTimeoutsRef st)); [discriminate |].
  destruct (timeoutId st) as [h0 |]; [| auto].
  intros H. apply lookup_delete_Some in H. apply H.
Qed.

Lemma inv_cleanup st : inv st -> inv (cleanup st).
Proof.
  intros I. split.
  - intros h t H. apply cleanup_lookup in H. apply (inv_fresh st I h t H).
  - cbn. intros h H. apply elem_of_empty in H. destruct H.
  - cbn. discriminate.
  - apply (inv_sorted st I).
  - apply (inv_ids st I).
  - apply (inv_count st I).
Qed.

Lemma inv_spawnShootingStar rev d h t st :
  inv st -> timers st !! h = Some t -> run t = Spawn ->
  inv (spawnShootingStar rev d
        {| shootingStars := shootingStars st;
           starIdRef := starIdRef st;
           removalTimeoutsRef := removalTimeoutsRef st;
           timeoutId := timeoutId st;
           timers := delete h (timers st);
           nextTimer := nextTimer st;
           live := live st |}).
Proof.
  intros I Hh Rh.
  assert (Eid : id (newStar rev d (starIdRef st)) = starIdRef st)
    by (destruct rev; reflexivity).
  split; unfold spawnShootingStar;
    cbn [shootingStars starIdRef removalTimeoutsRef timeoutId timers
         nextTimer live].
  - intros h' t' H. apply lookup_insert_Some in H.
    destruct H as [[<- _] | [_ H]]; [lia |].
    apply lookup_insert_Some in H.
    destruct H as [[<- _] | [_ H]]; [lia |].
    apply lookup_delete_Some in H. destruct H as [_ H].
    pose proof (inv_fresh st I h' t' H). lia.
  - intros h' H. apply elem_of_union in H. destruct H as [H | H].
    + apply elem_of_singleton in H. subst h'.
      eexists. exists (id (newStar rev d (starIdRef st))).
      cbn [timers].
      split; [rewrite lookup_insert_ne by lia; apply lookup_insert_eq
             | reflexivity].
    + destruct (inv_tracked st I h' H) as (t' & k & Ht & Rt).
      exists t', k. split; [| exact Rt]. cbn [timers].
      pose proof (inv_fresh st I h' t' Ht).
      rewrite lookup_insert_ne by lia. rewrite lookup_insert_ne by lia.
      rewrite lookup_delete_ne; [exact Ht |].
      intros ->. congruence.
  - intros _. exists (S (nextTimer st)). split; [reflexivity |].
    eexists. cbn [timers]. split; [apply lookup_insert_eq | reflexivity].
  - rewrite fmap_app. cbn [fmap list_fmap]. rewrite Eid.
    apply sorted_snoc; [apply (inv_sorted st I) |].
    eapply Forall_impl; [apply (inv_ids st I) |]. cbn. intros k Hk. lia.
  - rewrite fmap_app. cbn [fmap list_fmap]. rewrite Eid.
    pose proof (inv_ids st I) as F. pose proof (inv_count st I) as P.
    apply Forall_app. split.
    + eapply Forall_impl; [exact F |]. cbn. intros k Hk. lia.
    + repeat constructor; lia.
  - pose proof (inv_count st I). lia.
Qed.

Lemma inv_removeShootingStar k h t st :
  inv st -> timers st !! h = Some t -> run t = Remove k ->
  inv (removeShootingStar k h
        {| shootingStars := shootingStars st;
           starIdRef := starIdRef st;
           removalTimeoutsRef := removalTimeoutsRef st;
           timeoutId := timeoutId st;
           timers := delete h (timers st);
           nextTimer := nextTimer st;
           live := live st |}).
Proof.
  intros I Hh Rh.
  split; unfold removeShootingStar;
    cbn [shootingStars starIdRef removalTimeoutsRef timeoutId timers
         nextTimer live].
  - intros h' t' H. apply lookup_delete_Some in H. destruct H as [_ H].
    apply (inv_fresh st I h' t' H).
  - intros h' H. apply elem_of_difference in H. destruct H as [H N].
    destruct (inv_tracked st I h' H) as (t' & k' & Ht & Rt).
    exists t', k'. split; [| exact Rt]. cbn [timers].
    rewrite lookup_delete_ne; [exact Ht |].
    intros ->. apply N. apply elem_of_singleton. reflexivity.
  - intros L. destruct (inv_chain st I L) as (h0 & T & t0 & Ht & Rt).
    exists h0. split; [exact T |]. exists t0. split; [| exact Rt].
    cbn [timers]. rewrite lookup_delete_ne; [exact Ht |].
    intros ->. congruence.
  - apply sorted_filter_ids, (inv_sorted st I).
  - apply Forall_filter_ids, (inv_ids st I).
  - apply (inv_count st I).
Qed.

Lemma inv_step rev st e : inv st -> inv (step rev st e).
Proof.
  intros I. destruct e as [| | h d]; cbn [step].
  - destruct (live st); [exact I | apply inv_mount, I].
  - destruct (live st); [apply inv_cleanup, I | exact I].
  - unfold fire. destruct (timers st !! h) as [t |] eqn:E; [| exact I].
    destruct (run t) as [| k] eqn:R.
    + apply (inv_spawnShootingStar rev d h t st I E R).
    + apply (inv_removeShootingStar k h t st I E R).
Qed.

Lemma inv_exec rev es : forall st, inv st -> inv (exec rev es st).
Proof.
  unfold exec. induction es as [| e es IH]; intros st I; [exact I |].
  cbn. apply IH, inv_step, I.
Qed.

(** X14. The identifiers of the shooting stars in the list grow strictly from
    the front to the back, so no identifier occurs twice, and each is a
    value [starIdRef] has already passed: the list is in the order of the
    spawns, whatever the order in which timers fired and however often the
    effect was cleaned up and run again. *)
Theorem shooting_star_ids_increase :
  forall (rev : revision) (es : list event),
    let st := exec rev es initial in
    StronglySorted Z.lt (id <$> shootingStars st) /\
    Forall (fun k => (0 <= k < starIdRef st)%Z) (id <$> shootingStars st).
Proof.
  intros rev es st.
  assert (I : inv st) by apply inv_exec, inv_initial.
  split; [apply (inv_sorted st I) | apply (inv_ids st I)].
Qed.

(** X15. While the effect is mounted the chain of spawns never breaks:
    [timeoutId] holds the handle of a pending timer that will run
    [spawnShootingStar], and no other pending timer will. *)
Theorem spawn_timer_chain_never_breaks :
  forall (rev : revision) (es : list event),
    let st := exec rev es initial in
    live st = true ->
    exists h, timeoutId st = Some h /\ pending_spawn st h /\
              forall h', pending_spawn st h' -> h' = h.
Proof.
  intros rev es st L.
  assert (I : inv st) by apply inv_exec, inv_initial.
  assert (W : wf st) by apply wf_exec, wf_initial.
  destruct (inv_chain st I L) as (h & T & P).
  exists h. split; [exact T |]. split; [exact P |].
  intros h' (t' & Ht & Rt).
  pose proof (wf_spawn st W h' t' Ht Rt). congruence.
Qed.

Lemma spawn_timer_chain_witness :
  let d := {| forDuration := 1 # 2; forTop := 1 # 4; forLeft := 3 # 4;
              forDelay := 1 # 2; forNext := 1 # 8 |} in
  let st := exec Reference [Mount; Fire 1 d; Fire 2 d; Fire 3 d] initial in
  exists h, timeoutId st = Some h /\ pending_spawn st h /\
            forall h', pending_spawn st h' -> h' = h.
Proof.
  intros d.
  apply (spawn_timer_chain_never_breaks
           Reference [Mount; Fire 1 d; Fire 2 d; Fire 3 d]).
  reflexivity.
Defined.

(** X16. [removalTimeoutsRef] holds exactly the handles of the pending removal
    timers: a handle enters it when its timer is started and leaves it when
    the timer fires or the cleanup clears the set. *)
Theorem removalTimeoutsRef_holds_the_pending_removals :
  forall (rev : revision) (es : list event) (h : nat),
    let st := exec rev es initial in
    h ∈ removalTimeoutsRef st <-> pending_removal st h.
Proof.
  intros rev es h st.
  assert (I : inv st) by apply inv_exec, inv_initial.
  assert (W : wf st) by apply wf_exec, wf_initial.
  split; [apply (inv_tracked st I) |].
  intros (t & k & Ht & Rt). apply (wf_removal st W h t k Ht Rt).
Qed.

(** *** One mounted effect *)

Lemma covered_step rev st e :
  inv st -> wf st -> e <> Unmount ->
  covered st /\ (live st = false -> shootingStars st = []) ->
  covered (step rev st e) /\
  (live (step rev st e) = false -> shootingStars (step rev st e) = []).
Proof.
  intros I W N [C D]. destruct e as [| | h d]; cbn [step].
  - destruct (live st) eqn:L; [split; [exact C | congruence] |].
    split; [| discriminate].
    intros s Hs. cbn in Hs. rewrite (D eq_refl) in Hs. inversion Hs.
  - congruence.
  - unfold fire. destruct (timers st !! h) as [t |] eqn:E;
      [| split; assumption].
    destruct (run t) as [| k] eqn:R.
    + split.
      * intros s Hs. unfold spawnShootingStar in Hs |- *.
        cbn [shootingStars starIdRef removalTimeoutsRef timeoutId timers
             nextTimer live] in Hs |- *.
        apply elem_of_app in Hs. destruct Hs as [Hs | Hs].
        -- destruct (C s Hs) as (h' & t' & Ht & Rt).
           exists h', t'. split; [| exact Rt].
           pose proof (inv_fresh st I h' t' Ht).
           rewrite lookup_insert_ne by lia. rewrite lookup_insert_ne by lia.
           rewrite lookup_delete_ne; [exact Ht |].
           intros ->. congruence.
        -- apply list_elem_of_singleton in Hs. subst s.
           exists (nextTimer st). eexists.
           split; [rewrite lookup_insert_ne by lia; apply lookup_insert_eq
                  | reflexivity].
      * unfold spawnShootingStar.
        cbn [shootingStars starIdRef removalTimeoutsRef timeoutId timers
             nextTimer live].
        intros L. pose proof (wf_dead st W L) as T.
        rewrite T, lookup_empty in E. discriminate.
    + split.
      * intros s Hs. unfold removeShootingStar in Hs |- *.
        cbn [shootingStars starIdRef removalTimeoutsRef timeoutId timers
             nextTimer live] in Hs |- *.
        apply list_elem_of_filter in Hs. destruct Hs as [Ns Hs].
        destruct (C s Hs) as (h' & t' & Ht & Rt).
        exists h', t'. split; [| exact Rt].
        rewrite lookup_delete_ne; [exact Ht |].
        intros ->. apply Ns. congruence.
      * unfold removeShootingStar.
        cbn [shootingStars starIdRef removalTimeoutsRef timeoutId timers
             nextTimer live].
        intros L. pose proof (wf_dead st W L) as T.
        rewrite T, lookup_empty in E. discriminate.
Qed.

Lemma covered_exec rev es : forall st,
  inv st -> wf st -> no_cleanup es ->
  covered st /\ (live st = false -> shootingStars st = []) ->
  covered (exec rev es st).
Proof.
  unfold exec, no_cleanup.
  induction es as [| e es IH]; intros st I W N C; [apply C |].
  apply Forall_cons in N. destruct N as [Ne N]. cbn [fold_left].
  apply IH; [apply inv_step, I | apply wf_step, W | exact N |].
  apply covered_step; assumption.
Qed.

(** X17. As long as the effect is not cleaned up, no shooting star is left
    behind: every star in the list has a pending removal timer, tracked in
    [removalTimeoutsRef], that will filter out its identifier. *)
Theorem every_shown_star_has_a_pending_removal :
  forall (rev : revision) (es : list event) (s : ShootingStar),
    let st := exec rev es initial in
    no_cleanup es -> s ∈ shootingStars st ->
    exists h t, timers st !! h = Some t /\ run t = Remove (id s) /\
                h ∈ removalTimeoutsRef st.
Proof.
  intros rev es s st N Hs.
  assert (W : wf st) by apply wf_exec, wf_initial.
  assert (C : covered st).
  { apply covered_exec; [apply inv_initial | apply wf_initial | exact N |].
    split; [| reflexivity]. intros s' H. inversion H. }
  destruct (C s Hs) as (h & t & Ht & Rt).
  exists h, t. split; [exact Ht |]. split; [exact Rt |].
  apply (wf_removal st W h t (id s) Ht Rt).
Qed.

Lemma every_shown_star_witness :
  let d := {| forDuration := 1 # 2; forTop := 1 # 4; forLeft := 3 # 4;
              forDelay := 1 # 2; forNext := 1 # 8 |} in
  let st := exec Reference [Mount; Fire 1 d; Fire 3 d] initial in
  let s := newStar Reference d 1 in
  exists h t, timers st !! h = Some t /\ run t = Remove (id s) /\
              h ∈ removalTimeoutsRef st.
Proof.
  intros d.
  apply (every_shown_star_has_a_pending_removal
           Reference [Mount; Fire 1 d; Fire 3 d] (newStar Reference d 1)).
  - repeat (apply Forall_cons; split; [discriminate |]). constructor.
  - vm_compute. apply list_elem_of_further, list_elem_of_here.
Defined.

End SchedulerMore.

(** ** The shooting-star scheduler: timing *)

Section TimerOrder.

Import JS Shooting Timers.
Local Open Scope Q_scope.

Lemma trunc_range (a b : Z) (x : number) :
  (0 <= a)%Z -> inject_Z a <= x -> x <= inject_Z b ->
  (a <= trunc x <= b)%Z.
Proof.
  intros Ha L U.
  assert (E : trunc x = Qfloor x).
  { destruct x as [n p]. unfold trunc. cbn [Qnum Qden Qfloor].
    apply Z.quot_div_nonneg; [| lia].
    assert (P : 0 <= n # p).
    { apply Qle_trans with (inject_Z a); [| exact L].
      unfold Qle. cbn. lia. }
    unfold Qle in P. cbn in P. lia. }
  rewrite E. split.
  - rewrite <- (Qfloor_Z a). apply Qfloor_resp_le, L.
  - rewrite <- (Qfloor_Z b). apply Qfloor_resp_le, U.
Qed.

Lemma toInt32_range (a b : Z) (x : number) :
  (0 <= a)%Z -> (b < 2147483648)%Z -> inject_Z a <= x -> x <= inject_Z b ->
  (a <= toInt32 x <= b)%Z.
Proof.
  intros Ha Hb L U. pose proof (trunc_range a b x Ha L U) as T.
  unfold toInt32, toUint32, two32.
  rewrite Z.mod_small by lia.
  destruct (2147483648 <=? trunc x)%Z eqn:C; [| exact T].
  apply Z.leb_le in C. lia.
Qed.

Lemma removalDelay_between star dlo dhi elo ehi :
  dlo <= duration star -> duration star <= dhi ->
  elo <= delay star -> delay star <= ehi ->
  0 <= add dlo elo ->
  mul (add dlo elo) (int 1000) <= removalDelay star /\
  removalDelay star <= mul (add dhi ehi) (int 1000).
Proof.
  intros D1 D2 E1 E2 P. unfold removalDelay.
  assert (L : add dlo elo <= add (duration star) (delay star))
    by (apply add_mono; assumption).
  assert (U : add (duration star) (delay star) <= add dhi ehi)
    by (apply add_mono; assumption).
  assert (K : 0 <= int 1000) by (vm_compute; discriminate).
  split.
  - apply mul_mono; [exact P | exact L | exact K | apply Qle_refl].
  - apply mul_mono; [lra | exact U | exact K | apply Qle_refl].
Qed.

Lemma reference_delays d k :
  valid_draws d ->
  let star := newStar Reference d k in
  (lit (12 # 10) <= duration star /\ duration star <= 2) /\
  (0 <= delay star /\ delay star < 3 # 10) /\
  (1200 <= removalDelay star /\ removalDelay star <= 2300).
Proof.
  intros (Hd & _ & _ & He & _) star.
  apply unit_double_range in Hd, He.
  assert (D : lit (12 # 10) <= duration star /\ duration star <= 2).
  { exact (affine_range_le (1 - pow2 (-53)) (lit (12 # 10)) (lit (8 # 10))
             (lit (12 # 10)) 2 (forDuration d) Hd
             ltac:(closed_cmp) ltac:(closed_cmp) ltac:(closed_cmp)). }
  assert (E : 0 <= delay star /\ delay star < 3 # 10).
  { exact (scaled_range (1 - pow2 (-53)) (lit (3 # 10)) (3 # 10)
             (forDelay d) He ltac:(closed_cmp) ltac:(closed_cmp)). }
  split; [exact D |]. split; [exact E |].
  destruct D as [D1 D2]. destruct E as [E1 E2].
  destruct (removalDelay_between star (lit (12 # 10)) 2 0 (3 # 10)
              D1 D2 E1 (Qlt_le_weak _ _ E2) ltac:(closed_cmp)) as [R1 R2].
  split.
  - apply Qle_trans with (mul (add (lit (12 # 10)) 0) (int 1000));
      [closed_cmp | exact R1].
  - apply Qle_trans with (mul (add 2 (3 # 10)) (int 1000));
      [exact R2 | closed_cmp].
Qed.

Lemma variant_delays d k :
  valid_draws d ->
  let star := newStar Variant d k in
  (lit (1 # 10) <= duration star /\ duration star <= lit (2 # 10)) /\
  delay star = 0 /\
  (100 <= removalDelay star /\ removalDelay star <= 200).
Proof.
  intros (Hd & _) star.
  apply unit_double_range in Hd.
  assert (D : lit (1 # 10) <= duration star /\
              duration star <= lit (2 # 10)).
  { exact (affine_range_le (1 - pow2 (-53)) (lit (1 # 10)) (lit (1 # 10))
             (lit (1 # 10)) (lit (2 # 10)) (forDuration d) Hd
             ltac:(closed_cmp) ltac:(closed_cmp) ltac:(closed_cmp)). }
  split; [exact D |]. split; [reflexivity |].
  destruct D as [D1 D2].
  destruct (removalDelay_between star (lit (1 # 10)) (lit (2 # 10)) 0 0
              D1 D2 (Qle_refl 0) (Qle_refl 0) ltac:(closed_cmp)) as [R1 R2].
  split.
  - apply Qle_trans with (mul (add (lit (1 # 10)) 0) (int 1000));
      [closed_cmp | exact R1].
  - apply Qle_trans with (mul (add (lit (2 # 10)) 0) (int 1000));
      [exact R2 | closed_cmp].
Qed.

Lemma removal_before_spawn rev d k :
  valid_draws d ->
  (0 <= removalDelay (newStar rev d k) /\
   removalDelay (newStar rev d k) <= 2300) /\
  (millis {| ms := removalDelay (newStar rev d k); run := Remove k |}
   <= 2300 /\
   4000 <= millis {| ms := nextDelay d; run := Spawn |} <= 9000)%Z.
Proof.
  intros V.
  assert (R : 0 <= removalDelay (newStar rev d k) /\
              removalDelay (newStar rev d k) <= 2300).
  { destruct rev.
    - destruct (reference_delays d k V) as (_ & _ & R1 & R2). lra.
    - destruct (variant_delays d k V) as (_ & _ & R1 & R2). lra. }
  split; [exact R |].
  destruct (spawn_ranges rev d k V) as (_ & _ & N1 & N2).
  unfold millis. cbn [ms].
  pose proof (toInt32_range 0 2300 _ ltac:(lia) ltac:(lia)
                (proj1 R) (proj2 R)).
  pose proof (toInt32_range 4000 9000 _ ltac:(lia) ltac:(lia) N1 N2).
  lia.
Qed.

(** X18. What one spawn schedules: in the reference revision the star's
    duration lies between the doubles 1.2 and 2, its delay in [0, 0.3), and
    its removal is due after 1200 to 2300 milliseconds; in the variant the
    duration lies between the doubles 0.1 and 0.2, the delay is 0, and the
    removal is due after 100 to 200 milliseconds.  In both the browser reads
    a timeout of at most 2300 for the removal and of 4000 to 9000 for the
    next spawn, so the removal's is the shorter. *)
Theorem removal_is_due_before_the_next_spawn :
  forall (rev : revision) (d : draws) (k : Z),
    valid_draws d ->
    let star := newStar rev d k in
    let removal := {| ms := removalDelay star; run := Remove (id star) |} in
    let spawn := {| ms := nextDelay d; run := Spawn |} in
    match rev with
    | Reference =>
        (lit (12 # 10) <= duration star /\ duration star <= 2) /\
        (0 <= delay star /\ delay star < 3 # 10) /\
        (1200 <= removalDelay star /\ removalDelay star <= 2300)
    | Variant =>
        (lit (1 # 10) <= duration star /\ duration star <= lit (2 # 10)) /\
        delay star = 0 /\
        (100 <= removalDelay star /\ removalDelay star <= 200)
    end /\
    (millis removal <= 2300 /\ 4000 <= millis spawn <= 9000 /\
     millis removal < millis spawn)%Z.
Proof.
  intros rev d k V star removal spawn. split.
  - destruct rev; [apply reference_delays, V | apply variant_delays, V].
  - assert (E : id star = k) by (destruct rev; reflexivity).
    unfold removal, spawn. rewrite E.
    pose proof (removal_before_spawn rev d k V) as (_ & M1 & M2).
    unfold star. lia.
Qed.

Lemma removal_is_due_witness :
  let d := {| forDuration := 1 # 2; forTop := 1 # 4; forLeft := 3 # 4;
              forDelay := 1 # 2; forNext := 1 # 8 |} in
  let star := newStar Reference d 7 in
  let removal := {| ms := removalDelay star; run := Remove (id star) |} in
  let spawn := {| ms := nextDelay d; run := Spawn |} in
  ((lit (12 # 10) <= duration star /\ duration star <= 2) /\
   (0 <= delay star /\ delay star < 3 # 10) /\
   (1200 <= removalDelay star /\ removalDelay star <= 2300)) /\
  (millis removal <= 2300 /\ 4000 <= millis spawn <= 9000 /\
   millis removal < millis spawn)%Z.
Proof.
  intros d.
  apply (removal_is_due_before_the_next_spawn Reference d 7).
  repeat split; vm_compute; congruence.
Defined.

(** The upper end 2 of the reference duration is reached: for the largest
    double below 1, [1.2 + r * 0.8] rounds to 2. *)
Example reference_duration_reaches_2 :
  let r : number := 1 - pow2 (-53) in
  let d := {| forDuration := r; forTop := 1 # 4; forLeft := 3 # 4;
              forDelay := 1 # 2; forNext := 1 # 8 |} in
  valid_draws d /\ duration (newStar Reference d 0) = 2.
Proof. cbv zeta. split; [repeat split; vm_compute; congruence |]. reflexivity. Qed.

(** *** One shooting star at a time *)

Lemma shape_step rev st e :
  shape st ->
  match e with
  | Mount => True
  | Unmount => False
  | Fire h d => may_fire st h = true /\ valid_draws d
  end ->
  shape (step rev st e).
Proof.
  intros Sh A. destruct e as [| | h d]; [| destruct A |].
  - (* Mount *)
    cbn [step]. destruct Sh as [(L & St & T) | [(L & R) | (L & R)]].
    + rewrite L. right. left. cbn [mount live shootingStars timers].
      split; [reflexivity |]. split; [exact St |].
      exists (nextTimer st), {| ms := int 2500; run := Spawn |}.
      rewrite T, insert_empty. split; reflexivity.
    + rewrite L. right. left. split; assumption.
    + rewrite L. right. right. split; assumption.
  - (* a timer fires *)
    destruct A as [F V]. cbn [step]. unfold fire.
    destruct Sh as [(L & St & T) | [(L & St & h0 & t0 & T & R)
                                  | (L & s & hr & tr & hs & ts & St & T & Lt
                                       & Rr & Rs & M)]].
    + rewrite T, lookup_empty. left. rewrite T. auto.
    + rewrite T. destruct (decide (h0 = h)) as [-> | N].
      * rewrite lookup_singleton_eq, R, delete_singleton_eq.
        right. right. unfold spawnShootingStar.
        cbn [shootingStars starIdRef removalTimeoutsRef timeoutId timers
             nextTimer live].
        split; [exact L |].
        exists (newStar rev d (starIdRef st)), (nextTimer st),
          {| ms := removalDelay (newStar rev d (starIdRef st));
             run := Remove (id (newStar rev d (starIdRef st))) |},
          (S (nextTimer st)), {| ms := nextDelay d; run := Spawn |}.
        rewrite St, insert_empty.
        split; [reflexivity |]. split; [reflexivity |]. split; [lia |].
        split; [reflexivity |]. split; [reflexivity |].
        assert (E : id (newStar rev d (starIdRef st)) = starIdRef st)
          by (destruct rev; reflexivity).
        rewrite E.
        pose proof (removal_before_spawn rev d (starIdRef st) V)
          as (_ & M1 & M2).
        lia.
      * rewrite lookup_singleton_ne by exact N.
        right. left. split; [exact L |]. split; [exact St |].
        exists h0, t0. split; assumption.
    + rewrite T. destruct (decide (hs = h)) as [-> | Ns].
      * exfalso. unfold may_fire in F. rewrite T, lookup_insert_eq in F.
        apply bool_decide_eq_true_1 in F.
        assert (Hr : (<[ h := ts ]> ({[ hr := tr ]} : gmap nat timer))
                       !! hr = Some tr).
        { rewrite lookup_insert_ne by lia. apply lookup_singleton_eq. }
        pose proof (F hr tr Hr Lt). lia.
      * rewrite lookup_insert_ne by exact Ns.
        destruct (decide (hr = h)) as [-> | Nr].
        -- rewrite lookup_singleton_eq, Rr.
           right. left. unfold removeShootingStar.
           cbn [shootingStars starIdRef removalTimeoutsRef timeoutId timers
                nextTimer live].
           split; [exact L |]. split.
           ++ rewrite St, filter_cons, filter_nil.
              destruct (decide (id s <> id s)) as [C | _];
                [destruct C |]; reflexivity.
           ++ exists hs, ts. split; [| exact Rs].
              rewrite delete_insert_ne by lia.
              rewrite delete_singleton_eq. apply insert_empty.
        -- rewrite lookup_singleton_ne by exact Nr.
           right. right. split; [exact L |].
           exists s, hr, tr, hs, ts. rewrite T. auto 10.
Qed.

(** While a star is shown the timer of the next spawn has to wait; fired
    out of order it would put a second star into the list. *)
Example spawn_timer_waits_for_the_removal :
  let d := {| forDuration := 1 # 2; forTop := 1 # 4; forLeft := 3 # 4;
              forDelay := 1 # 2; forNext := 1 # 8 |} in
  let st := exec Reference [Mount; Fire 1 d] initial in
  may_fire st 2 = true /\ may_fire st 3 = false /\
  length (shootingStars (step Reference st (Fire 3 d))) = 2%nat.
Proof. vm_compute. repeat split. Qed.

Lemma shape_exec rev es : forall st,
  shape st -> ordered rev es st -> shape (exec rev es st).
Proof.
  unfold exec. induction es as [| e es IH]; intros st Sh O; [exact Sh |].
  cbn [ordered] in O. destruct O as [A O]. cbn [fold_left].
  apply IH; [apply shape_step; assumption | exact O].
Qed.

(** X19. While one effect is mounted, the browser runs timers in the order HTML
    prescribes and [Math.random] returns doubles in [0,1), the list never
    holds more than one shooting star: the removal timer of a star is
    started before the timer of the next spawn with a shorter timeout, so
    the star is removed before the next one is added. *)
Theorem at_most_one_shooting_star :
  forall (rev : revision) (es : list event),
    ordered rev es initial ->
    (length (shootingStars (exec rev es initial)) <= 1)%nat.
Proof.
  intros rev es O.
  assert (Sh : shape (exec rev es initial)).
  { apply shape_exec; [| exact O]. left. auto. }
  destruct Sh as [(_ & St & _) | [(_ & St & _) | (_ & s & hr & tr & hs & ts
                                                  & St & _)]];
    rewrite St; cbn; lia.
Qed.

Lemma at_most_one_shooting_star_witness :
  let d := {| forDuration := 1 # 2; forTop := 1 # 4; forLeft := 3 # 4;
              forDelay := 1 # 2; forNext := 1 # 8 |} in
  (length (shootingStars
             (exec Reference [Mount; Fire 1 d; Fire 2 d; Fire 3 d] initial))
   <= 1)%nat.
Proof.
  intros d.
  apply (at_most_one_shooting_star
           Reference [Mount; Fire 1 d; Fire 2 d; Fire 3 d]).
  assert (V : valid_draws d) by (repeat split; vm_compute; congruence).
  cbn [ordered].
  repeat (split;
          [first [exact I | split; [vm_compute; reflexivity | exact V]] |]).
  exact I.
Defined.

End TimerOrder.
